(** * prisma-redis-extension: the [$allOperations] query hook

    A shallow embedding of the extension built by [createPrismaRedisCache]
    (the second module of src/src/types.ts, after the option types; line
    numbers below are those of that file).  The hook is asynchronous
    JavaScript that talks to three collaborators: the upstream Prisma
    executor ([query]), the caching library ([createCache] of
    async-cache-dedupe: [cache.define], the per-model cache functions and
    [cache.invalidateAll]) and, optionally, a raw Redis client
    ([redis.del]).  It is embedded as a computation in a small
    state-and-exception monad over a [World] that holds the registry of
    defined cache functions, the stored cache entries, the failures of the
    collaborators and a chronological trace of every call made to them. *)

From stdpp Require Import base option strings list gmap.
From Stdlib Require Import Ascii.

(** ** Values exchanged with the collaborators *)

(** Query arguments and results are opaque payloads; they are kept in their
    canonical serialisation. *)
Definition Args := string.
Definition Result := string.
Definition Err := string.

(** A settled promise. *)
Inductive Settled (A : Type) : Type :=
| Fulfilled (a : A)
| Rejected (e : Err).
Arguments Fulfilled {A} a.
Arguments Rejected {A} e.

(** The [query] callback handed to the hook.  Its outcome may depend on the
    arguments and on how many upstream calls were made before it. *)
Definition Query := Args → nat → Settled Result.

(** ** Options ([CreatePrismaRedisCache], as the hook destructures them) *)

Inductive Redis := RedisClient.

Record RedisMemoryOptions := { client : option Redis }.

Inductive Storage :=
| redis_storage (options : option RedisMemoryOptions)
| memory_storage.

Module ModelOptions.
(** One element of [models], with the properties the hook reads from it. *)
Record t := {
  model : string;
  cacheKey : option string;
  cacheTime : option nat;
  excludeMethods : option (list string);
  invalidateRelated : option (list string);
  customInvalidate : option (list string);
  useContainsInvalidation : option bool;
}.
End ModelOptions.

Record CreatePrismaRedisCache := {
  models : option (list ModelOptions.t);
  storage : option Storage;
  cacheTime : option nat;
  excludeModels : option (list string);
  excludeMethods : option (list string);
  useContainsInvalidation : option bool;
}.

Definition DEFAULT_CACHE_TIME : nat := 0.

(** The two tables imported from "./cacheMethods". *)
Class CacheMethods := {
  defaultCacheMethods : list string;
  defaultMutationMethods : list string;
}.

(** Modelled from the spec: cacheMethods.ts is not among the sources; the
    spec speaks of "a fixed enumeration of read kinds and write kinds" and
    types.ts enumerates them as [PrismaQueryAction] and
    [PrismaMutationAction], the element types of the two tables. *)
Definition PrismaQueryAction : list string :=
  ["findFirst"; "findUnique"; "findMany"; "aggregate"; "count"; "groupBy";
   "findRaw"; "aggregateRaw"].

(** Modelled from the spec: the write kinds, as types.ts lists them. *)
Definition PrismaMutationAction : list string :=
  ["create"; "createMany"; "update"; "updateMany"; "upsert"; "delete";
   "deleteMany"; "executeRawUnsafe"].

Definition prismaMethods : CacheMethods :=
  {| defaultCacheMethods := PrismaQueryAction;
     defaultMutationMethods := PrismaMutationAction |}.

(** ** JavaScript idioms *)

(** [xs.includes(x)] and [xs?.includes(x)] (the latter is [undefined],
    hence falsy, on a missing list). *)
Definition includes (xs : list string) (x : string) : bool :=
  bool_decide (x ∈ xs).

Definition includes_opt (xs : option (list string)) (x : string) : bool :=
  match xs with
  | Some l => includes l x
  | None => false
  end.

(** Truthiness of a possibly missing string. *)
Definition truthy_string (s : option string) : bool :=
  match s with
  | Some s => negb (String.eqb s "")
  | None => false
  end.

(** [a || b] on numbers. *)
Definition or_number (a : option nat) (b : nat) : nat :=
  match a with
  | Some n => if Nat.eqb n 0 then b else n
  | None => b
  end.

(** A value interpolated into a template literal. *)
Definition interpolate (s : option string) : string :=
  match s with
  | Some s => s
  | None => "undefined"
  end.

(** [a || b] on possibly missing strings. *)
Definition or_string (a b : option string) : option string :=
  if truthy_string a then a else b.

(** [s.toLowerCase()] is a builtin of the runtime.  The extension is
    embedded over any such function, so that what is proved of it holds
    for the builtin whatever letters a name holds. *)
Class StringPrototype := {
  toLowerCase : string → string;
}.

(** The lower-casing of the letters A to Z, with which the builtin agrees
    on ASCII strings; the sample operations run with it. *)
Definition lower_ascii (c : ascii) : ascii :=
  let n := nat_of_ascii c in
  if (65 <=? n)%nat && (n <=? 90)%nat then ascii_of_nat (n + 32) else c.

Fixpoint ascii_toLowerCase (s : string) : string :=
  match s with
  | EmptyString => EmptyString
  | String c s' => String (lower_ascii c) (ascii_toLowerCase s')
  end.

Definition ascii_runtime : StringPrototype :=
  {| toLowerCase := ascii_toLowerCase |}.

Definition dquote : string := String "034"%char EmptyString.

(** ** The world the hook runs in *)

(** Calls made to the collaborators, in the order they are made. *)
Inductive Event :=
| EvQuery (args : Args)               (* query(args): the upstream executor *)
| EvDefine (name : string)            (* cache.define(name, ...) *)
| EvGet (key : string)                (* the cache layer reads its store *)
| EvSet (key : string)                (* the cache layer writes its store *)
| EvInvalidateAll (pattern : string)  (* cache.invalidateAll(pattern) *)
| EvRedisDel (pattern : string)       (* redis.del(pattern) *)
| EvConsoleError (e : Err)            (* console.error(err) *)
| EvConsoleLog (e : Err)              (* console.log("Failed to delete from redis", e) *)
| EvOnError (e : Err).                (* the cache layer reports a failure of its store *)

#[global] Instance Event_eq_dec : EqDecision Event.
Proof. solve_decision. Defined.

(** The argument object of a cache function, [{ cb, queryArgs }] at the
    only call site; a property that is not set reads as [undefined]. *)
Module CallArgs.
Record t := {
  cb : Query;
  args : option Args;
  queryArgs : Args;
  model : option string;
}.
End CallArgs.

(** The two [references] closures and the two fetch functions passed to
    [cache.define], with the variables they capture. *)
Inductive ReferencesFn :=
| modelsReferences (cacheKey : option string)
| modelReferences.

Inductive FetchFn :=
| modelsFetch (queryArgs : Args)
| modelFetch.

(** What [cache.define(name, opts, fn)] registers under [cache[name]];
    [ttl = None] when the options carry no [ttl]. *)
Record CacheDef := {
  references : ReferencesFn;
  ttl : option nat;
  func : FetchFn;
}.

Record CacheEntry := {
  value : Result;
  tags : list string;
  lifetime : nat;
}.

(** Failures of the collaborators other than the executor. *)
Record Faults := {
  get_fault : option Err;                 (* reading the store fails *)
  set_fault : option Err;                 (* writing the store fails *)
  invalidate_fault : string → option Err; (* the store fails on invalidateAll(pattern) *)
  del_fault : string → option Err;        (* redis.del(pattern) rejects *)
}.

Record World := {
  registry : gmap string CacheDef;   (* cache[name], set by cache.define *)
  entries : gmap string CacheEntry;  (* what the cache layer has stored *)
  upstream_calls : nat;
  trace : list Event;
  faults : Faults;
}.

Definition no_faults : Faults :=
  {| get_fault := None; set_fault := None;
     invalidate_fault := λ _, None; del_fault := λ _, None |}.

Definition empty_world : World :=
  {| registry := ∅; entries := ∅; upstream_calls := 0; trace := [];
     faults := no_faults |}.

Definition set_registry (f : gmap string CacheDef → gmap string CacheDef) (w : World) : World :=
  {| registry := f (registry w); entries := entries w;
     upstream_calls := upstream_calls w; trace := trace w; faults := faults w |}.

Definition set_entries (f : gmap string CacheEntry → gmap string CacheEntry) (w : World) : World :=
  {| registry := registry w; entries := f (entries w);
     upstream_calls := upstream_calls w; trace := trace w; faults := faults w |}.

Definition set_faults (fs : Faults) (w : World) : World :=
  {| registry := registry w; entries := entries w;
     upstream_calls := upstream_calls w; trace := trace w; faults := fs |}.

Definition log_event (ev : Event) (w : World) : World :=
  {| registry := registry w; entries := entries w;
     upstream_calls := upstream_calls w; trace := trace w ++ [ev];
     faults := faults w |}.

Definition count_upstream (w : World) : World :=
  {| registry := registry w; entries := entries w;
     upstream_calls := S (upstream_calls w); trace := trace w;
     faults := faults w |}.

(** ** Asynchronous computations

    An [async] function body: it runs against the world and settles.  The
    world survives a rejection, as effects already performed are not undone
    by a thrown error. *)
Definition M (A : Type) : Type := World → Settled A * World.

Definition ret {A} (a : A) : M A := λ w, (Fulfilled a, w).

Definition throw {A} (e : Err) : M A := λ w, (Rejected e, w).

Definition bind {A B} (m : M A) (k : A → M B) : M B :=
  λ w, match m w with
       | (Fulfilled a, w') => k a w'
       | (Rejected e, w') => (Rejected e, w')
       end.

(** [try { m } catch (err) { h err }] *)
Definition try_catch {A} (m : M A) (h : Err → M A) : M A :=
  λ w, match m w with
       | (Fulfilled a, w') => (Fulfilled a, w')
       | (Rejected e, w') => h e w'
       end.

Definition get_world : M World := λ w, (Fulfilled w, w).

Definition modify (f : World → World) : M unit := λ w, (Fulfilled tt, f w).

Definition emit (ev : Event) : M unit := modify (log_event ev).

#[global] Instance M_ret : MRet M := @ret.
#[global] Instance M_bind : MBind M := λ A B k m, bind m k.

(** A promise: what is left to run of an async call once its synchronous
    part has run.  An async function is a computation that returns its
    promise; its effects up to the first [await] happen at the call, the
    others when the promise settles. *)
Definition Promise (A : Type) : Type := M A.

(** [await f(...)] *)
Definition await {A} (call : M (Promise A)) : M A := p ← call; p.

Fixpoint forEach {A} (xs : list A) (f : A → M unit) : M unit :=
  match xs with
  | [] => ret tt
  | x :: xs' => f x;; forEach xs' f
  end.

(** [list.push(f(...))] over a list of calls: every call is made, in order,
    and its promise is kept. *)
Fixpoint start_all {A} (calls : list (M (Promise A))) : M (list (Promise A)) :=
  match calls with
  | [] => mret []
  | call :: calls' =>
      p ← call;
      ps ← start_all calls';
      mret (p :: ps)
  end.

(** A promise settles; a rejection stays in the promise until it is
    awaited. *)
Definition settle {A} (p : Promise A) : M (Settled A) :=
  λ w, let '(r, w') := p w in (Fulfilled r, w').

(** The promises of a list settle, here in the order of the list. *)
Fixpoint settle_all {A} (ps : list (Promise A)) : M (list (Settled A)) :=
  match ps with
  | [] => mret []
  | p :: ps' =>
      r ← settle p;
      rs ← settle_all ps';
      mret (r :: rs)
  end.

Fixpoint first_rejection {A} (rs : list (Settled A)) : option Err :=
  match rs with
  | [] => None
  | Fulfilled _ :: rs' => first_rejection rs'
  | Rejected e :: _ => Some e
  end.

(** [await Promise.all(ps)] over promises already started: it rejects with
    a rejection among them when there is one. *)
Definition Promise_all {A} (ps : list (Promise A)) : M unit :=
  rs ← settle_all ps;
  match first_rejection rs with
  | Some e => throw e
  | None => mret tt
  end.

(** ** The collaborators *)

(** [const fetchFromPrisma = async (args) => query(args)]: one call of the
    upstream executor. *)
Definition fetchFromPrisma (query : Query) (args : Args) : M Result :=
  λ w, (query args (upstream_calls w),
        count_upstream (log_event (EvQuery args) w)).

(** The bodies of the closures given to [cache.define]:
    [`${cacheKey || model}~${key}`] and [`${model}~${key}`], where [model] is
    destructured from the first argument, and [await cb(args || queryArgs)],
    where [modelsFetch] does not destructure [queryArgs] and so reads the
    variable of the enclosing hook invocation. *)
Definition run_references (r : ReferencesFn) (a : CallArgs.t) (key : string) : list string :=
  match r with
  | modelsReferences cacheKey =>
      [interpolate (or_string cacheKey (CallArgs.model a)) +:+ "~" +:+ key]
  | modelReferences =>
      [interpolate (CallArgs.model a) +:+ "~" +:+ key]
  end.

Definition fetch_args (f : FetchFn) (a : CallArgs.t) : Args :=
  match f with
  | modelsFetch queryArgs => default queryArgs (CallArgs.args a)
  | modelFetch => default (CallArgs.queryArgs a) (CallArgs.args a)
  end.

Definition run_func (f : FetchFn) (a : CallArgs.t) : M Result :=
  fetchFromPrisma (CallArgs.cb a) (fetch_args f a).

(** [cache.define(name, opts, fn)].  The hook only calls it for a name
    that [cache[name]] does not hold yet; a model is assumed not to be named
    after a member of the cache object itself ([define], [clear], ...). *)
Definition define (name : string) (d : CacheDef) : M unit :=
  emit (EvDefine name);;
  modify (set_registry (insert name d)).

(** Wildcard patterns: [*] stands for any run of characters. *)
Fixpoint glob (p s : string) : bool :=
  match p with
  | EmptyString => match s with EmptyString => true | _ => false end
  | String c p' =>
      if Ascii.eqb c "*" then
        (fix star (s : string) : bool :=
           glob p' s || match s with
                        | EmptyString => false
                        | String _ s' => star s'
                        end) s
      else
        match s with
        | EmptyString => false
        | String c' s' => Ascii.eqb c c' && glob p' s'
        end
  end.

(** Modelled from the spec: the key of a call inside the caching library,
    which is not part of the repository.  The spec asks for "a stable,
    deterministic hash or serialization of arguments"; the function-valued
    [cb] of the argument object cannot take part in it. *)
Definition getKey (a : CallArgs.t) : string := CallArgs.queryArgs a.

Definition storageKey (name : string) (a : CallArgs.t) : string :=
  name +:+ "~" +:+ getKey a.

(** Modelled from the spec: the cache function [cache[name]] that the
    caching library (async-cache-dedupe, not part of the repository) builds
    from a definition.  Spec 3: "ttl (seconds, 0 = cache disabled ...)", and
    4.3: with caching disabled, the fetch function is called "directly" with
    "no cache interaction".  Otherwise, spec 4.3: "if an entry exists in the
    backend under that key, return it (cache hit) without calling
    executor", else call the fetch function and "store the result under the
    key with the Policy's TTL and computed references"; a failure of the
    fetch function "propagates to the caller and no entry is stored".  The
    library hands the argument object of the call to both closures of the
    definition.  A failing store makes the call reject.  The lifetime is
    recorded with the entry; its expiry is not modelled. *)
Definition cacheFunction (default_ttl : nat) (name : string) (d : CacheDef)
    (a : CallArgs.t) : M Result :=
  if Nat.eqb (default default_ttl (ttl d)) 0 then run_func (func d) a
  else
    let key := storageKey name a in
    w ← get_world;
    emit (EvGet key);;
    match get_fault (faults w) with
    | Some e => throw e
    | None =>
        match entries w !! key with
        | Some en => mret (value en)
        | None =>
            result ← run_func (func d) a;
            emit (EvSet key);;
            match set_fault (faults w) with
            | Some e => throw e
            | None =>
                modify (set_entries (insert key
                  {| value := result;
                     tags := run_references (references d) a (getKey a);
                     lifetime := default default_ttl (ttl d) |}));;
                mret result
            end
        end
    end.

(** Modelled from the spec: [cache.invalidateAll(pattern)] of the caching
    library, the "pattern-delete" of spec 4.4 and 4.5: once the call has
    been made, every entry with a reference tag matching the pattern is
    deleted.  A failure of the store is reported and the purge settles all
    the same (spec 4.4: "success or individually-logged failure", "reported
    via an error/observability hook, not propagated"). *)
Definition invalidateAll (pattern : string) : M (Promise unit) :=
  emit (EvInvalidateAll pattern);;
  mret (w ← get_world;
        match invalidate_fault (faults w) pattern with
        | Some e => emit (EvOnError e)
        | None =>
            modify (set_entries
              (filter (λ kv, existsb (glob pattern) (tags kv.2) = false)))
        end).

(** Modelled from the spec: [redis.del(str)] of the Redis client (ioredis,
    not part of the repository), the raw store's delete of spec 4.5, which
    removes the key named [str] once the call has been made, or rejects. *)
Definition redis_del (redis : Redis) (str : string) : M (Promise unit) :=
  emit (EvRedisDel str);;
  mret (w ← get_world;
        match del_fault (faults w) str with
        | Some e => throw e
        | None => modify (set_entries (delete str))
        end).

(** ** The extension *)

(** [removeFormRedis(redis, str)] once called: with a client, [redis.del]
    is called, and the function waits for it inside its [try]. *)
Definition removeFormRedis_promise (redis : option Redis) (str : string) :
    M (Promise unit) :=
  match redis with
  | Some r =>
      p ← redis_del r str;
      mret (try_catch p (λ e, emit (EvConsoleLog e)))
  | None => mret (mret tt)
  end.

(** [await removeFormRedis(redis, str)] *)
Definition removeFormRedis (redis : option Redis) (str : string) : M unit :=
  await (removeFormRedis_promise redis str).

(** The argument of the hook: [{ args: queryArgs, model, operation, query }]. *)
Record Params := {
  args : Args;
  model : option string;
  operation : string;
  query : Query;
}.

(** One invalidation pushed on [invalidateList]. *)
Inductive Purge :=
| via_cache (pattern : string)   (* cache.invalidateAll(pattern) *)
| via_redis (pattern : string).  (* removeFormRedis(redis, pattern) *)

#[global] Instance Purge_eq_dec : EqDecision Purge.
Proof. solve_decision. Defined.

(** The patterns: [`*${m}~*`], [`${m}~*`] and [`*"${m}":*`]. *)
Definition tagged_anywhere (m : string) : string := "*" +:+ m +:+ "~*".
Definition tagged (m : string) : string := m +:+ "~*".
Definition quoted (m : string) : string :=
  "*" +:+ dquote +:+ m +:+ dquote +:+ ":*".

Section Extension.
Context `{CacheMethods} `{StringPrototype}.
Variable opts : CreatePrismaRedisCache.

(** Defaults of the destructured options. *)
Definition cacheOptions_ttl : nat := default DEFAULT_CACHE_TIME (cacheTime opts).
Definition excludeModels_ : list string := default [] (excludeModels opts).
Definition excludeMethods_ : list string := default [] (excludeMethods opts).
Definition useContainsInvalidation_ : bool :=
  default false (useContainsInvalidation opts).

(** [defaultCacheMethods.filter((cacheMethod) => excludeMethods.includes(cacheMethod))] *)
Definition excludedCacheMethods : list string :=
  filter (λ cacheMethod, cacheMethod ∈ excludeMethods_) defaultCacheMethods.

(** The callback of [models?.forEach]. *)
Definition defineModels (queryArgs : Args) (model operation : string)
    (mo : ModelOptions.t) : M unit :=
  w ← get_world;
  if negb (bool_decide (is_Some (registry w !! ModelOptions.model mo)))
     && String.eqb (ModelOptions.model mo) model
     && negb (includes excludeModels_ model)
     && negb (includes_opt (ModelOptions.excludeMethods mo) operation)
  then
    define model
      {| references := modelsReferences (ModelOptions.cacheKey mo);
         ttl := Some (or_number (ModelOptions.cacheTime mo) cacheOptions_ttl);
         func := modelsFetch queryArgs |}
  else mret tt.

(** [models?.find(...)]: the first element for this model whose
    [excludeMethods] has a non-zero length. *)
Definition excludedCacheMethodsInModels (model : string) : option ModelOptions.t :=
  List.find
    (λ mo, String.eqb (ModelOptions.model mo) model
           && match ModelOptions.excludeMethods mo with
              | Some (_ :: _) => true
              | _ => false
              end)
    (default [] (models opts)).

Definition defineModel (model operation : string) : M unit :=
  w ← get_world;
  if negb (bool_decide (is_Some (registry w !! model)))
     && negb (includes excludeModels_ model)
     && negb (includes_opt
                (excludedCacheMethodsInModels model ≫= ModelOptions.excludeMethods)
                operation)
  then
    define model
      {| references := modelReferences; ttl := None; func := modelFetch |}
  else mret tt.

(** [storage?.type === "redis" && storage?.options?.client ? storage.options.client : null] *)
Definition redis_of_storage : option Redis :=
  match storage opts with
  | Some (redis_storage (Some o)) => client o
  | _ => None
  end.

(** What one related model pushes (lines 258 to 271). *)
Definition relatedPurges (redis : option Redis) (contains : bool)
    (relatedModel : string) : list Purge :=
  [via_cache (tagged_anywhere relatedModel); via_cache (tagged relatedModel)]
  ++ (if contains then
        [via_cache (quoted relatedModel);
         via_cache (quoted (toLowerCase relatedModel))]
        ++ (if redis is Some _ then
              [via_redis (quoted relatedModel);
               via_redis (quoted (toLowerCase relatedModel))]
            else [])
      else []).

Definition customPurges (redis : option Redis) (customKey : string) : list Purge :=
  via_cache customKey :: (if redis is Some _ then [via_redis customKey] else []).

(** What one element of [models] for the written model pushes (the body
    of the [for ... of] loop). *)
Definition modelPurges (redis : option Redis) (mo : ModelOptions.t) : list Purge :=
  let contains :=
    match ModelOptions.useContainsInvalidation mo with
    | Some subUseContainsInvalidation => subUseContainsInvalidation
    | None => useContainsInvalidation_
    end in
  (if ModelOptions.invalidateRelated mo is Some invalidateRelated then
     flat_map (relatedPurges redis contains) invalidateRelated
   else [])
  ++ (if ModelOptions.customInvalidate mo is Some customInvalidate then
        flat_map (customPurges redis) customInvalidate
      else []).

(** [invalidateList], in the order of the pushes. *)
Definition invalidateList (model : string) (redis : option Redis) : list Purge :=
  [via_cache (tagged_anywhere model); via_cache (tagged model)]
  ++ (if redis is Some _ then [via_redis (tagged_anywhere model)] else [])
  ++ (if useContainsInvalidation_ then
        [via_cache (quoted model); via_cache (quoted (toLowerCase model))]
        ++ (if redis is Some _ then
              [via_redis (quoted model); via_redis (quoted (toLowerCase model))]
            else [])
      else [])
  ++ flat_map (modelPurges redis)
       (List.filter (λ x, String.eqb (ModelOptions.model x) model)
          (default [] (models opts))).

(** The call each push makes; its promise is what is pushed. *)
Definition issue (redis : option Redis) (p : Purge) : M (Promise unit) :=
  match p with
  | via_cache pattern => invalidateAll pattern
  | via_redis pattern => removeFormRedis_promise redis pattern
  end.

(** The [else] branch (lines 232 to 284). *)
Definition uncached (p : Params) (model : string) : M Result :=
  let redis := redis_of_storage in
  result ← fetchFromPrisma (query p) (args p);
  if includes defaultMutationMethods (operation p) then
    invalidateList_ ← start_all (issue redis <$> invalidateList model redis);
    Promise_all invalidateList_;;
    mret result
  else mret result.

(** The object [{ cb: fetchFromPrisma, queryArgs }]. *)
Definition call_args (p : Params) : CallArgs.t :=
  {| CallArgs.cb := query p; CallArgs.args := None;
     CallArgs.queryArgs := args p; CallArgs.model := None |}.

(** The [catch] block (lines 225 to 230). *)
Definition fallback (p : Params) (err : Err) : M Result :=
  result ← fetchFromPrisma (query p) (args p);
  emit (EvConsoleError err);;
  mret result.

(** The [try ... catch] around the cache function (lines 223 to 230). *)
Definition cached (p : Params) (model : string) (d : CacheDef) : M Result :=
  try_catch (cacheFunction cacheOptions_ttl model d (call_args p)) (fallback p).

(** Modelled from the spec: reads that join a call in flight.  The single
    flight is kept by the caching library, not by the repository; spec 4.3
    and 5: "callers joining an in-flight call receive that call's eventual
    result (success or failure) rather than triggering their own".  The one
    call of the cache function settles, and every of the [n] callers of the
    same read resumes its own [try ... catch] with that outcome. *)
Definition joined (p : Params) (o : Settled Result) : M Result :=
  try_catch (λ w, (o, w)) (fallback p).

Definition concurrent_reads (n : nat) (p : Params) (model : string)
    (d : CacheDef) : M (list (Settled Result)) :=
  λ w, let '(o, w1) := cacheFunction cacheOptions_ttl model d (call_args p) w in
       settle_all (replicate n (joined p o)) w1.

(** The definitions of cache functions (lines 141 to 211). *)
Definition definitions (p : Params) (model : string) : M unit :=
  if negb (includes excludedCacheMethods (operation p)) then
    forEach (default [] (models opts))
      (defineModels (args p) model (operation p));;
    defineModel model (operation p)
  else mret tt.

(** [$allOperations] *)
Definition allOperations (p : Params) : M Result :=
  if negb (truthy_string (model p)) then fetchFromPrisma (query p) (args p)
  else
    let model := interpolate (model p) in
    definitions p model;;
    w ← get_world;
    let cacheFunction := registry w !! model in
    match cacheFunction with
    | Some d =>
        if negb (includes excludeModels_ model)
           && negb (includes excludedCacheMethods (operation p))
           && negb (includes defaultMutationMethods (operation p))
        then cached p model d
        else uncached p model
    | None => uncached p model
    end.

End Extension.

(** ** Observations on a run *)

Definition outcome {A} (r : Settled A * World) : Settled A := r.1.
Definition after {A} (r : Settled A * World) : World := r.2.

(** The events a computation adds to the trace of the world it starts in. *)
Definition emitted {A} (m : M A) (w : World) : list Event :=
  drop (length (trace w)) (trace (after (m w))).

(** Calls that read or write the store of the cache layer. *)
Definition is_cache_io (ev : Event) : bool :=
  match ev with
  | EvGet _ | EvSet _ => true
  | _ => false
  end.

(** Calls that delete from the cache layer or from the raw store. *)
Definition is_purge (ev : Event) : bool :=
  match ev with
  | EvInvalidateAll _ | EvRedisDel _ => true
  | _ => false
  end.

(** The call that the push of one purge makes, and what the trace gets
    when its promise settles. *)
Definition purge_call (redis : option Redis) (p : Purge) : list Event :=
  match p with
  | via_cache pattern => [EvInvalidateAll pattern]
  | via_redis pattern => if redis is Some _ then [EvRedisDel pattern] else []
  end.

Definition settle_events (fs : Faults) (redis : option Redis) (p : Purge) : list Event :=
  match p with
  | via_cache pattern =>
      if invalidate_fault fs pattern is Some e then [EvOnError e] else []
  | via_redis pattern =>
      if redis is Some _ then
        if del_fault fs pattern is Some e then [EvConsoleLog e] else []
      else []
  end.

(** The promise that the push of one purge holds. *)
Definition purge_promise (redis : option Redis) (p : Purge) : Promise unit :=
  match p with
  | via_cache pattern =>
      w ← get_world;
      match invalidate_fault (faults w) pattern with
      | Some e => emit (EvOnError e)
      | None =>
          modify (set_entries
            (filter (λ kv, existsb (glob pattern) (tags kv.2) = false)))
      end
  | via_redis pattern =>
      match redis with
      | Some r =>
          try_catch
            (w ← get_world;
             match del_fault (faults w) pattern with
             | Some e => throw e
             | None => modify (set_entries (delete pattern))
             end)
            (λ e, emit (EvConsoleLog e))
      | None => mret tt
      end
  end.

(** An operation is excluded for its model when some element of [models]
    for that model lists it in [excludeMethods]. *)
Definition excluded_in_models (opts : CreatePrismaRedisCache) (m operation : string) : bool :=
  existsb
    (λ mo, String.eqb (ModelOptions.model mo) m
           && includes_opt (ModelOptions.excludeMethods mo) operation)
    (default [] (models opts)).

(** A purge leaves everything but the stored entries and the trace alone. *)
Definition purged_from (w w1 : World) : Prop :=
  faults w1 = faults w
  ∧ registry w1 = registry w
  ∧ upstream_calls w1 = upstream_calls w.

(** How the definitions of cache functions for model [m] may change a
    world: nothing but the registry entry of [m] and the trace, and not even
    those when [m] already has its cache function. *)
Definition defined_by (m : string) (w w1 : World) : Prop :=
  entries w1 = entries w
  ∧ faults w1 = faults w
  ∧ upstream_calls w1 = upstream_calls w
  ∧ (∃ defs, trace w1 = trace w ++ defs ∧ Forall (λ ev, ev = EvDefine m) defs)
  ∧ (∀ k, k ≠ m → registry w1 !! k = registry w !! k)
  ∧ (is_Some (registry w !! m) → registry w1 = registry w ∧ trace w1 = trace w).

(** The ways a call of a cache function can go. *)
Inductive CacheCall (t : nat) (m : string) (d : CacheDef) (a : CallArgs.t)
    (w : World) : Settled Result * World → Prop :=
  | call_disabled :
      default t (ttl d) = 0 →
      CacheCall t m d a w (run_func (func d) a w)
  | call_unreachable e :
      default t (ttl d) ≠ 0 →
      get_fault (faults w) = Some e →
      CacheCall t m d a w (Rejected e, log_event (EvGet (storageKey m a)) w)
  | call_hit en :
      default t (ttl d) ≠ 0 →
      get_fault (faults w) = None →
      entries w !! storageKey m a = Some en →
      CacheCall t m d a w
        (Fulfilled (value en), log_event (EvGet (storageKey m a)) w)
  | call_failed_fetch e :
      default t (ttl d) ≠ 0 →
      get_fault (faults w) = None →
      entries w !! storageKey m a = None →
      CallArgs.cb a (fetch_args (func d) a) (upstream_calls w) = Rejected e →
      CacheCall t m d a w
        (Rejected e,
         count_upstream (log_event (EvQuery (fetch_args (func d) a))
                           (log_event (EvGet (storageKey m a)) w)))
  | call_failed_set r e :
      default t (ttl d) ≠ 0 →
      get_fault (faults w) = None →
      entries w !! storageKey m a = None →
      CallArgs.cb a (fetch_args (func d) a) (upstream_calls w) = Fulfilled r →
      set_fault (faults w) = Some e →
      CacheCall t m d a w
        (Rejected e,
         log_event (EvSet (storageKey m a))
           (count_upstream (log_event (EvQuery (fetch_args (func d) a))
                              (log_event (EvGet (storageKey m a)) w))))
  | call_stored r :
      default t (ttl d) ≠ 0 →
      get_fault (faults w) = None →
      entries w !! storageKey m a = None →
      CallArgs.cb a (fetch_args (func d) a) (upstream_calls w) = Fulfilled r →
      set_fault (faults w) = None →
      CacheCall t m d a w
        (Fulfilled r,
         set_entries
           (insert (storageKey m a)
              {| value := r;
                 tags := run_references (references d) a (getKey a);
                 lifetime := default t (ttl d) |})
           (log_event (EvSet (storageKey m a))
              (count_upstream (log_event (EvQuery (fetch_args (func d) a))
                                 (log_event (EvGet (storageKey m a)) w))))).

(** What the fallback of a read comes to, for a run [res] from world [w]
    that added the events [evs]: a rejection is that of the executor call
    made last; and when a read or a write of the store was attempted and
    failed, the run settles as the direct call of the executor that follows
    it, logs the error of the store once that call has succeeded, and
    stores nothing. *)
Definition falls_back (p : Params) (w : World) (res : Settled Result * World)
    (evs : list Event) : Prop :=
  (∀ e, outcome res = Rejected e →
     upstream_calls w < upstream_calls (after res)
     ∧ query p (args p) (pred (upstream_calls (after res))) = Rejected e)
  ∧ (∀ e k, get_fault (faults w) = Some e → EvGet k ∈ evs →
       outcome res = query p (args p) (upstream_calls w)
       ∧ upstream_calls (after res) = S (upstream_calls w)
       ∧ (∀ r, outcome res = Fulfilled r → EvConsoleError e ∈ evs)
       ∧ entries (after res) = entries w)
  ∧ (∀ e k, set_fault (faults w) = Some e → EvSet k ∈ evs →
       outcome res = query p (args p) (S (upstream_calls w))
       ∧ upstream_calls (after res) = S (S (upstream_calls w))
       ∧ (∀ r, outcome res = Fulfilled r → EvConsoleError e ∈ evs)
       ∧ entries (after res) = entries w).

(** ** Sample configurations and operations *)

#[local] Existing Instance prismaMethods.
#[local] Existing Instance ascii_runtime.

Definition plain (m : string) : ModelOptions.t :=
  {| ModelOptions.model := m; ModelOptions.cacheKey := None;
     ModelOptions.cacheTime := None; ModelOptions.excludeMethods := None;
     ModelOptions.invalidateRelated := None;
     ModelOptions.customInvalidate := None;
     ModelOptions.useContainsInvalidation := None |}.

Definition no_options : CreatePrismaRedisCache :=
  {| models := None; storage := None; cacheTime := None;
     excludeModels := None; excludeMethods := None;
     useContainsInvalidation := None |}.

Definition sixty_seconds : CreatePrismaRedisCache :=
  {| models := None; storage := None; cacheTime := Some 60;
     excludeModels := None; excludeMethods := None;
     useContainsInvalidation := None |}.

Definition with_models (ms : list ModelOptions.t) (ttl : nat) : CreatePrismaRedisCache :=
  {| models := Some ms; storage := None; cacheTime := Some ttl;
     excludeModels := None; excludeMethods := None;
     useContainsInvalidation := None |}.

Definition on_redis : CreatePrismaRedisCache :=
  {| models := None;
     storage := Some (redis_storage (Some {| client := Some RedisClient |}));
     cacheTime := Some 60; excludeModels := None; excludeMethods := None;
     useContainsInvalidation := None |}.

(** A model whose writes also invalidate [Comment], with the given
    [useContainsInvalidation] of its own, next to the element of [Comment]
    which sets the flag for itself. *)
Definition post_and_comment (flag : option bool) : list ModelOptions.t :=
  [ {| ModelOptions.model := "Post"; ModelOptions.cacheKey := None;
       ModelOptions.cacheTime := None; ModelOptions.excludeMethods := None;
       ModelOptions.invalidateRelated := Some ["Comment"];
       ModelOptions.customInvalidate := None;
       ModelOptions.useContainsInvalidation := flag |};
    {| ModelOptions.model := "Comment"; ModelOptions.cacheKey := None;
       ModelOptions.cacheTime := None; ModelOptions.excludeMethods := None;
       ModelOptions.invalidateRelated := None;
       ModelOptions.customInvalidate := None;
       ModelOptions.useContainsInvalidation := Some true |} ].

(** A model for which [findUnique] is not to be cached. *)
Definition user_without_findUnique : list ModelOptions.t :=
  [ {| ModelOptions.model := "User"; ModelOptions.cacheKey := None;
       ModelOptions.cacheTime := None;
       ModelOptions.excludeMethods := Some ["findUnique"];
       ModelOptions.invalidateRelated := None;
       ModelOptions.customInvalidate := None;
       ModelOptions.useContainsInvalidation := None |} ].

(** A model with a [cacheTime] of zero and an empty [cacheKey]. *)
Definition user_with_zero_time : list ModelOptions.t :=
  [ {| ModelOptions.model := "User"; ModelOptions.cacheKey := Some "";
       ModelOptions.cacheTime := Some 0; ModelOptions.excludeMethods := None;
       ModelOptions.invalidateRelated := None;
       ModelOptions.customInvalidate := None;
       ModelOptions.useContainsInvalidation := None |} ].

(** An executor with a single row to give. *)
Definition one_row : Query := λ _ _, Fulfilled "the row".

(** A world whose store cannot be read. *)
Definition unreachable : World :=
  set_faults
    {| get_fault := Some "ECONNREFUSED"; set_fault := Some "ECONNREFUSED";
       invalidate_fault := λ _, None; del_fault := λ _, None |}
    empty_world.

(** An executor that always answers, and one whose first call fails. *)
Definition rows : Query := λ a _, Fulfilled ("rows of " +:+ a).

Definition flaky : Query :=
  λ a n, if Nat.eqb n 0 then Rejected "P2024" else Fulfilled ("rows of " +:+ a).

Definition op (m kind a : string) (q : Query) : Params :=
  {| args := a; model := Some m; operation := kind; query := q |}.

(** Operations without a model. *)
Definition raw_query : Params :=
  {| args := "SELECT 1"; model := None; operation := "queryRaw"; query := rows |}.

Definition raw_delete : Params :=
  {| args := "DELETE FROM User"; model := None;
     operation := "executeRawUnsafe"; query := rows |}.

(** A world that holds one entry of [User]. *)
Definition warm : World :=
  set_entries
    (insert "User~{}"
       {| value := "rows of {}"; tags := ["User~{}"]; lifetime := 60 |})
    empty_world.

(** A world whose store fails every purge, of the cache layer and of the
    raw client alike, and that holds one entry of [User]. *)
Definition purges_fail : World :=
  set_faults
    {| get_fault := None; set_fault := None;
       invalidate_fault := λ _, Some "ECONNRESET";
       del_fault := λ _, Some "ECONNRESET" |}
    (set_entries
       (insert "User~{}"
          {| value := "rows of {}"; tags := ["User~{}"]; lifetime := 60 |})
       empty_world).

(** A world whose store can be read but not written. *)
Definition unwritable : World :=
  set_faults
    {| get_fault := None; set_fault := Some "READONLY";
       invalidate_fault := λ _, None; del_fault := λ _, None |}
    empty_world.

(** Substring invalidation switched on for every model, with elements of
    [models]. *)
Definition contains_with (ms : list ModelOptions.t) : CreatePrismaRedisCache :=
  {| models := Some ms; storage := None; cacheTime := Some 60;
     excludeModels := None; excludeMethods := None;
     useContainsInvalidation := Some true |}.

(** Sample runs of the hook. *)
Definition delete_user_on_redis : M Result :=
  allOperations on_redis (op "User" "delete" "{}" rows).

Definition delete_user : M Result :=
  allOperations sixty_seconds (op "User" "delete" "{}" rows).

Definition delete_post (flag : option bool) : M Result :=
  allOperations (with_models (post_and_comment flag) 60)
    (op "Post" "delete" "{}" rows).

Definition find_users (q : Query) : M Result :=
  allOperations sixty_seconds (op "User" "findMany" "{}" q).

Definition find_users_of (ms : list ModelOptions.t) : M Result :=
  allOperations (with_models ms 60) (op "User" "findMany" "{}" rows).

Definition find_unique_user : M Result :=
  allOperations (with_models user_without_findUnique 60)
    (op "User" "findUnique" "{}" one_row).

(** Further sample configurations: a model and a method excluded for all
    models, a model with patterns of its own to invalidate, and substring
    invalidation switched on for every model, the last two on Redis. *)
Definition excluding_user : CreatePrismaRedisCache :=
  {| models := None; storage := None; cacheTime := Some 60;
     excludeModels := Some ["User"]; excludeMethods := None;
     useContainsInvalidation := None |}.

Definition excluding_or_throw : CreatePrismaRedisCache :=
  {| models := None; storage := None; cacheTime := Some 60;
     excludeModels := None; excludeMethods := Some ["findUniqueOrThrow"];
     useContainsInvalidation := None |}.

Definition post_with_feed : list ModelOptions.t :=
  [ {| ModelOptions.model := "Post"; ModelOptions.cacheKey := None;
       ModelOptions.cacheTime := None; ModelOptions.excludeMethods := None;
       ModelOptions.invalidateRelated := None;
       ModelOptions.customInvalidate := Some ["feed:*"];
       ModelOptions.useContainsInvalidation := None |} ].

Definition feed_on_redis : CreatePrismaRedisCache :=
  {| models := Some post_with_feed;
     storage := Some (redis_storage (Some {| client := Some RedisClient |}));
     cacheTime := Some 60; excludeModels := None; excludeMethods := None;
     useContainsInvalidation := None |}.

Definition contains_on_redis : CreatePrismaRedisCache :=
  {| models := None;
     storage := Some (redis_storage (Some {| client := Some RedisClient |}));
     cacheTime := Some 60; excludeModels := None; excludeMethods := None;
     useContainsInvalidation := Some true |}.

(** A model whose own element switches substring invalidation on. *)
Definition user_with_flag : list ModelOptions.t :=
  [ {| ModelOptions.model := "User"; ModelOptions.cacheKey := None;
       ModelOptions.cacheTime := None; ModelOptions.excludeMethods := None;
       ModelOptions.invalidateRelated := None;
       ModelOptions.customInvalidate := None;
       ModelOptions.useContainsInvalidation := Some true |} ].

(** A model with a lifetime and a prefix of its own. *)
Definition user_with_key : list ModelOptions.t :=
  [ {| ModelOptions.model := "User"; ModelOptions.cacheKey := Some "U";
       ModelOptions.cacheTime := Some 300; ModelOptions.excludeMethods := None;
       ModelOptions.invalidateRelated := None;
       ModelOptions.customInvalidate := None;
       ModelOptions.useContainsInvalidation := None |} ].

(** A world whose Redis client fails every [del]. *)
Definition redis_down : World :=
  set_faults
    {| get_fault := None; set_fault := None; invalidate_fault := λ _, None;
       del_fault := λ _, Some "ECONNRESET" |}
    empty_world.

(** An executor that fails every call. *)
Definition refusing : Query := λ _ _, Rejected "P2002".

(** The world left by a first [findMany] on [User], a model listed in
    [models]. *)
Definition after_first_find : World :=
  after (find_users_of [plain "User"] empty_world).

(** A [delete] on [Post] with substring invalidation switched on for every
    model, and a [delete] on [User] whose first executor call fails. *)
Definition delete_post_with (flag : option bool) : M Result :=
  allOperations (contains_with (post_and_comment flag))
    (op "Post" "delete" "{}" rows).

Definition delete_user_failing : M Result :=
  allOperations on_redis (op "User" "delete" "{}" flaky).

(** The cache function of a model that is not listed in [models], the
    world in which a first operation has defined it for [User], and two
    reads of [User] with the same arguments that share one call of it. *)
Definition user_function : CacheDef :=
  {| references := modelReferences; ttl := None; func := modelFetch |}.

Definition defined_user : World :=
  after (definitions sixty_seconds (op "User" "findMany" "{}" rows) "User"
           empty_world).

Definition two_find_users (q : Query) : M (list (Settled Result)) :=
  concurrent_reads sixty_seconds 2 (op "User" "findMany" "{}" q) "User"
    user_function.

(** The purge calls among the events of a run. *)
Definition purge_calls (evs : list Event) : list Event :=
  filter (λ ev, is_purge ev = true) evs.

(** ** Proof automation *)

(** Unfolds the monadic plumbing of a run. *)
Ltac run :=
  cbv beta iota zeta delta
    [mbind M_bind bind mret M_ret ret emit modify get_world throw try_catch];
  simpl.

(** Membership in a list given by its elements and appends. *)
Ltac member :=
  simpl; rewrite ?elem_of_app, ?elem_of_cons; intuition auto.

(** Membership of an element spelled out in a list of conses. *)
Ltac listed :=
  simpl; repeat first [apply list_elem_of_here | apply list_elem_of_further].

(** An event that is not among the events listed. *)
Ltac absent H :=
  repeat (apply elem_of_cons in H as [H | H]; [discriminate H |]);
  by apply elem_of_nil in H.

(** Decides a closed decidable proposition by evaluation. *)
Ltac evaluated := apply (bool_decide_unpack _); vm_compute; exact I.

(** ** Running computations *)

Lemma run_bind {A B} (m : M A) (k : A → M B) (w : World) :
  (m ≫= k) w =
  match m w with
  | (Fulfilled a, w') => k a w'
  | (Rejected e, w') => (Rejected e, w')
  end.
Proof. reflexivity. Qed.

Lemma run_fetchFromPrisma (q : Query) (a : Args) (w : World) :
  fetchFromPrisma q a w =
  (q a (upstream_calls w), count_upstream (log_event (EvQuery a) w)).
Proof. reflexivity. Qed.

Lemma emitted_app {A} (m : M A) (w : World) (evs : list Event) :
  trace (after (m w)) = trace w ++ evs → emitted m w = evs.
Proof.
  intros Htrace. unfold emitted. rewrite Htrace.
  by rewrite drop_app_length.
Qed.

(** ** Operations without a model *)

Section NoModel.
Context `{CacheMethods} `{StringPrototype} (opts : CreatePrismaRedisCache).

Lemma allOperations_no_model (p : Params) (w : World) :
  model p = None ∨ model p = Some "" →
  allOperations opts p w = fetchFromPrisma (query p) (args p) w.
Proof.
  intros [Hm | Hm]; unfold allOperations; by rewrite Hm.
Qed.

(** C8. An operation that carries no model (none, or the empty name) is
    handed to the executor directly: the hook settles as that one call
    settles, the call is the only thing it does, and neither the registry
    of cache functions nor the stored entries change. *)
Theorem no_model_goes_straight_to_executor (p : Params) (w : World) :
  model p = None ∨ model p = Some "" →
  outcome (allOperations opts p w) = query p (args p) (upstream_calls w)
  ∧ emitted (allOperations opts p) w = [EvQuery (args p)]
  ∧ registry (after (allOperations opts p w)) = registry w
  ∧ entries (after (allOperations opts p w)) = entries w.
Proof.
  intros Hm. split; [| split; [| split]].
  - by rewrite allOperations_no_model.
  - apply emitted_app. by rewrite allOperations_no_model.
  - by rewrite allOperations_no_model.
  - by rewrite allOperations_no_model.
Qed.

(** C9. A mutation that carries no model invalidates nothing: no purge is
    issued, every stored entry is still there under its key, and a later
    call of a cache function with a lifetime on such a key is answered from
    it. *)
Theorem mutation_without_model_purges_nothing (p : Params) (w : World) :
  model p = None ∨ model p = Some "" →
  includes defaultMutationMethods (operation p) = true →
  Forall (λ ev, is_purge ev = false) (emitted (allOperations opts p) w)
  ∧ (∀ key, entries (after (allOperations opts p w)) !! key = entries w !! key)
  ∧ (∀ t name d a en,
       default t (ttl d) ≠ 0 →
       get_fault (faults w) = None →
       entries w !! storageKey name a = Some en →
       outcome (cacheFunction t name d a (after (allOperations opts p w)))
       = Fulfilled (value en)).
Proof.
  intros Hm _. split; [| split].
  - erewrite emitted_app; [| by rewrite allOperations_no_model].
    by repeat constructor.
  - intros key. by rewrite allOperations_no_model.
  - intros t name d a en Httl Hget Hen.
    rewrite allOperations_no_model by done.
    unfold cacheFunction, outcome.
    destruct (Nat.eqb_spec (default t (ttl d)) 0) as [Hzero | _]; [done |].
    rewrite !run_bind. simpl.
    rewrite Hget. simpl. by rewrite Hen.
Qed.

End NoModel.

Lemma no_model_goes_straight_to_executor_witness :
  outcome (allOperations no_options raw_query warm) = Fulfilled "rows of SELECT 1"
  ∧ emitted (allOperations no_options raw_query) warm = [EvQuery "SELECT 1"].
Proof.
  destruct (no_model_goes_straight_to_executor no_options raw_query warm)
    as (Hout & Hev & _); [by left |].
  split; [exact Hout | exact Hev].
Defined.

Lemma mutation_without_model_purges_nothing_witness :
  entries (after (allOperations on_redis raw_delete warm)) !! "User~{}"
  = entries warm !! "User~{}".
Proof.
  destruct (mutation_without_model_purges_nothing on_redis raw_delete warm)
    as (_ & Hkeep & _); [by left | by vm_compute |].
  apply Hkeep.
Defined.

(** ** The definitions of cache functions *)

Lemma defined_by_refl (m : string) (w : World) : defined_by m w w.
Proof.
  repeat split; try done.
  exists []. split; [by rewrite app_nil_r | constructor].
Qed.

Lemma defined_by_trans (m : string) (w w1 w2 : World) :
  defined_by m w w1 → defined_by m w1 w2 → defined_by m w w2.
Proof.
  intros (He & Hf & Hu & (d1 & Ht1 & Hd1) & Hk & Hs)
         (He' & Hf' & Hu' & (d2 & Ht2 & Hd2) & Hk' & Hs').
  repeat split; try congruence.
  - exists (d1 ++ d2). split.
    + by rewrite Ht2, Ht1, app_assoc.
    + by apply Forall_app.
  - intros k Hne. by rewrite Hk', Hk.
  - destruct (Hs H) as [Hr _]. rewrite <- Hr in H.
    destruct (Hs' H) as [Hr' _]. congruence.
  - destruct (Hs H) as [Hr Ht]. rewrite <- Hr in H.
    destruct (Hs' H) as [_ Ht']. congruence.
Qed.

Lemma define_defined_by (m : string) (d : CacheDef) (w : World) :
  registry w !! m = None →
  ∃ w1, define m d w = (Fulfilled tt, w1) ∧ defined_by m w w1
        ∧ registry w1 !! m = Some d.
Proof.
  intros Hnone. eexists. split; [reflexivity |]. split.
  - repeat split; simpl; try done.
    + exists [EvDefine m]. split; [done | by repeat constructor].
    + intros k Hne. by rewrite lookup_insert_ne.
    + rewrite Hnone in H. by destruct H.
    + rewrite Hnone in H. by destruct H.
  - simpl. by rewrite lookup_insert_eq.
Qed.

Section Definitions.
Context `{CacheMethods} `{StringPrototype} (opts : CreatePrismaRedisCache).

Lemma defineModels_defined_by (a : Args) (m operation : string)
    (mo : ModelOptions.t) (w : World) :
  ∃ w1, defineModels opts a m operation mo w = (Fulfilled tt, w1)
        ∧ defined_by m w w1.
Proof.
  unfold defineModels. rewrite run_bind. simpl.
  destruct (registry w !! ModelOptions.model mo) as [d |] eqn:Hreg; simpl.
  - eexists. split; [reflexivity | apply defined_by_refl].
  - destruct (String.eqb (ModelOptions.model mo) m) eqn:Heq; simpl.
    + apply String.eqb_eq in Heq. subst m.
      destruct (negb (includes (excludeModels_ opts) (ModelOptions.model mo))
                && negb (includes_opt (ModelOptions.excludeMethods mo) operation));
        simpl.
      * edestruct define_defined_by as (w1 & Hrun & Hdef & _); [exact Hreg |].
        exists w1. split; [exact Hrun | exact Hdef].
      * eexists. split; [reflexivity | apply defined_by_refl].
    + eexists. split; [reflexivity | apply defined_by_refl].
Qed.

Lemma forEach_defined_by (a : Args) (m operation : string)
    (ms : list ModelOptions.t) (w : World) :
  ∃ w1, forEach ms (defineModels opts a m operation) w = (Fulfilled tt, w1)
        ∧ defined_by m w w1.
Proof.
  revert w. induction ms as [| mo ms IH]; intros w; simpl.
  - eexists. split; [reflexivity | apply defined_by_refl].
  - rewrite run_bind.
    destruct (defineModels_defined_by a m operation mo w) as (w1 & -> & Hd1).
    destruct (IH w1) as (w2 & -> & Hd2).
    exists w2. split; [done | by eapply defined_by_trans].
Qed.

Lemma defineModel_defined_by (m operation : string) (w : World) :
  ∃ w1, defineModel opts m operation w = (Fulfilled tt, w1)
        ∧ defined_by m w w1.
Proof.
  unfold defineModel. rewrite run_bind. simpl.
  destruct (registry w !! m) as [d |] eqn:Hreg; simpl.
  - eexists. split; [reflexivity | apply defined_by_refl].
  - match goal with |- context [if ?c then _ else _] => destruct c end.
    + edestruct define_defined_by as (w1 & Hrun & Hdef & _); [exact Hreg |].
      exists w1. split; [exact Hrun | exact Hdef].
    + eexists. split; [reflexivity | apply defined_by_refl].
Qed.

Lemma definitions_defined_by (p : Params) (m : string) (w : World) :
  ∃ w1, definitions opts p m w = (Fulfilled tt, w1) ∧ defined_by m w w1.
Proof.
  unfold definitions.
  destruct (negb (includes (excludedCacheMethods opts) (operation p))).
  - rewrite run_bind.
    destruct (forEach_defined_by (args p) m (operation p)
                (default [] (models opts)) w) as (w1 & -> & Hd1).
    destruct (defineModel_defined_by m (operation p) w1) as (w2 & -> & Hd2).
    exists w2. split; [done | by eapply defined_by_trans].
  - eexists. split; [reflexivity | apply defined_by_refl].
Qed.

End Definitions.

(** ** Issuing purges *)

Lemma first_rejection_fulfilled {A} (l : list A) :
  first_rejection ((λ _, Fulfilled tt) <$> l) = None.
Proof. by induction l. Qed.

Lemma flat_map_flat_map {A B C} (f : B → list C) (g : A → list B) (l : list A) :
  flat_map f (flat_map g l) = flat_map (λ x, flat_map f (g x)) l.
Proof.
  induction l as [| x l IH]; [done |]. simpl. by rewrite flat_map_app, IH.
Qed.

(** The push of a purge makes its call and holds its promise. *)
Lemma issue_run (redis : option Redis) (p : Purge) (w : World) :
  ∃ w1, issue redis p w = (Fulfilled (purge_promise redis p), w1)
        ∧ trace w1 = trace w ++ purge_call redis p
        ∧ purged_from w w1
        ∧ entries w1 = entries w.
Proof.
  destruct p as [pattern | pattern]; simpl.
  - eexists. split; [reflexivity |]. by repeat split.
  - destruct redis as [r |]; simpl.
    + eexists. split; [reflexivity |]. by repeat split.
    + eexists. split; [reflexivity |]. repeat split. by rewrite app_nil_r.
Qed.

Lemma start_all_issue (redis : option Redis) (l : list Purge) (w : World) :
  ∃ w1, start_all (issue redis <$> l) w
        = (Fulfilled (purge_promise redis <$> l), w1)
        ∧ trace w1 = trace w ++ flat_map (purge_call redis) l
        ∧ purged_from w w1
        ∧ entries w1 = entries w.
Proof.
  revert w. induction l as [| p l IH]; intros w.
  - eexists. split; [reflexivity |]. repeat split. by rewrite app_nil_r.
  - rewrite !fmap_cons. cbn [start_all]. rewrite run_bind.
    destruct (issue_run redis p w) as (w1 & -> & Ht1 & (Hf1 & Hr1 & Hu1) & He1).
    rewrite run_bind.
    destruct (IH w1) as (w2 & -> & Ht2 & (Hf2 & Hr2 & Hu2) & He2).
    exists w2. split; [done |]. simpl.
    split; [by rewrite Ht2, Ht1, app_assoc |].
    repeat split; congruence.
Qed.

(** The promise of a purge never rejects; when it settles, entries can only
    go; a purge of the cache layer whose store does not fail leaves no
    entry with a matching tag, and a delete of the raw store that does not
    fail leaves no entry under its key. *)
Lemma purge_promise_run (redis : option Redis) (p : Purge) (w : World) :
  ∃ w1, purge_promise redis p w = (Fulfilled tt, w1)
        ∧ trace w1 = trace w ++ settle_events (faults w) redis p
        ∧ purged_from w w1
        ∧ (∀ k en, entries w1 !! k = Some en → entries w !! k = Some en)
        ∧ (∀ pattern, p = via_cache pattern →
             invalidate_fault (faults w) pattern = None →
             ∀ k en, entries w1 !! k = Some en →
                     existsb (glob pattern) (tags en) = false)
        ∧ (∀ pattern, p = via_redis pattern → is_Some redis →
             del_fault (faults w) pattern = None →
             entries w1 !! pattern = None).
Proof.
  destruct p as [pattern | pattern]; simpl.
  - run. destruct (invalidate_fault (faults w) pattern) as [e |] eqn:Hfault;
      simpl; eexists; (split; [reflexivity |]); simpl.
    + repeat split; try done. intros ? [= <-]. congruence.
    + rewrite app_nil_r. repeat split; try done.
      * intros k en Hk. by apply map_lookup_filter_Some in Hk as [Hk _].
      * intros ? [= <-] _ k en Hk.
        by apply map_lookup_filter_Some in Hk as [_ Hk].
  - destruct redis as [r |]; simpl.
    + run. destruct (del_fault (faults w) pattern) as [e |] eqn:Hfault; simpl;
        eexists; (split; [reflexivity |]); simpl.
      * repeat split; try done. intros ? [= <-] _. congruence.
      * rewrite app_nil_r. repeat split; try done.
        -- intros k en Hk. by apply lookup_delete_Some in Hk as [_ Hk].
        -- intros ? [= <-] _ _. apply lookup_delete_eq.
    + eexists. split; [reflexivity |]. rewrite app_nil_r.
      repeat split; done.
Qed.

Lemma settle_all_purges (redis : option Redis) (l : list Purge) (w : World) :
  ∃ w1, settle_all (purge_promise redis <$> l) w
        = (Fulfilled ((λ _, Fulfilled tt) <$> l), w1)
        ∧ trace w1 = trace w ++ flat_map (settle_events (faults w) redis) l
        ∧ purged_from w w1
        ∧ (∀ k en, entries w1 !! k = Some en → entries w !! k = Some en)
        ∧ (∀ pattern, via_cache pattern ∈ l →
             invalidate_fault (faults w) pattern = None →
             ∀ k en, entries w1 !! k = Some en →
                     existsb (glob pattern) (tags en) = false)
        ∧ (∀ pattern, via_redis pattern ∈ l → is_Some redis →
             del_fault (faults w) pattern = None →
             entries w1 !! pattern = None).
Proof.
  revert w. induction l as [| p l IH]; intros w.
  - eexists. split; [reflexivity |]. rewrite app_nil_r. repeat split; try done.
    + intros pattern Hin. by apply elem_of_nil in Hin.
    + intros pattern Hin. by apply elem_of_nil in Hin.
  - rewrite !fmap_cons. cbn [settle_all]. rewrite run_bind. unfold settle at 1.
    destruct (purge_promise_run redis p w)
      as (w1 & -> & Ht1 & (Hf1 & Hr1 & Hu1) & Hk1 & Hp1 & Hd1).
    rewrite run_bind.
    destruct (IH w1) as (w2 & -> & Ht2 & (Hf2 & Hr2 & Hu2) & Hk2 & Hp2 & Hd2).
    exists w2. split; [done |]. simpl.
    split; [by rewrite Ht2, Ht1, Hf1, app_assoc |].
    split; [repeat split; congruence |]. split; [by auto |]. split.
    + intros pattern Hin Hok k en Hk. apply elem_of_cons in Hin as [Hin | Hin].
      * apply (Hp1 pattern (eq_sym Hin) Hok k). by apply Hk2.
      * apply (Hp2 pattern Hin) with k; [by rewrite Hf1 | done].
    + intros pattern Hin Hredis Hok. apply elem_of_cons in Hin as [Hin | Hin].
      * specialize (Hd1 pattern (eq_sym Hin) Hredis Hok).
        destruct (entries w2 !! pattern) as [en |] eqn:Hen; [| done].
        apply Hk2 in Hen. congruence.
      * apply (Hd2 pattern Hin Hredis). by rewrite Hf1.
Qed.

Section Purges.
Context `{CacheMethods} `{StringPrototype} (opts : CreatePrismaRedisCache).

(** A write whose executor call succeeds makes the call of every purge of
    [invalidateList], in the order of the pushes, before any of them
    settles, and fulfils with the executor's result. *)
Lemma uncached_write (p : Params) (m : string) (w : World) (r : Result) :
  includes defaultMutationMethods (operation p) = true →
  query p (args p) (upstream_calls w) = Fulfilled r →
  let redis := redis_of_storage opts in
  let l := invalidateList opts m redis in
  outcome (uncached opts p m w) = Fulfilled r
  ∧ trace (after (uncached opts p m w))
    = trace w ++ EvQuery (args p)
        :: flat_map (purge_call redis) l
        ++ flat_map (settle_events (faults w) redis) l
  ∧ (∀ k en, entries (after (uncached opts p m w)) !! k = Some en →
       entries w !! k = Some en)
  ∧ (∀ pattern, via_cache pattern ∈ l →
       invalidate_fault (faults w) pattern = None →
       ∀ k en, entries (after (uncached opts p m w)) !! k = Some en →
               existsb (glob pattern) (tags en) = false)
  ∧ (∀ pattern, via_redis pattern ∈ l → is_Some redis →
       del_fault (faults w) pattern = None →
       entries (after (uncached opts p m w)) !! pattern = None).
Proof.
  intros Hmut Hq. cbv zeta. unfold uncached.
  generalize (invalidateList opts m (redis_of_storage opts)). intros l.
  rewrite run_bind, run_fetchFromPrisma, Hq, Hmut, run_bind.
  destruct (start_all_issue (redis_of_storage opts) l
              (count_upstream (log_event (EvQuery (args p)) w)))
    as (w1 & -> & Ht1 & (Hf1 & _) & He1).
  unfold Promise_all. rewrite !run_bind.
  destruct (settle_all_purges (redis_of_storage opts) l w1)
    as (w2 & -> & Ht2 & _ & Hk2 & Hp2 & Hd2).
  rewrite first_rejection_fulfilled. unfold outcome, after. simpl.
  split; [done |]. split; [| split; [| split]].
  - rewrite Ht2, Ht1, Hf1. simpl. by rewrite <- !app_assoc.
  - intros k en Hk. apply Hk2 in Hk. by rewrite He1 in Hk.
  - intros pattern Hin Hok k en Hk.
    apply (Hp2 pattern Hin) with k; [by rewrite Hf1 | done].
  - intros pattern Hin Hredis Hok. apply (Hd2 pattern Hin Hredis).
    by rewrite Hf1.
Qed.

(** A write whose executor call fails stops there. *)
Lemma uncached_failed (p : Params) (m : string) (w : World) (e : Err) :
  query p (args p) (upstream_calls w) = Rejected e →
  uncached opts p m w
  = (Rejected e, count_upstream (log_event (EvQuery (args p)) w)).
Proof.
  intros Hq. unfold uncached. by rewrite run_bind, run_fetchFromPrisma, Hq.
Qed.

(** The hook on an operation that carries a model: the definitions, then
    one of the two branches. *)
Lemma allOperations_model (p : Params) (m : string) (w : World) :
  model p = Some m → m ≠ "" →
  ∃ w0, definitions opts p m w = (Fulfilled tt, w0)
        ∧ defined_by m w w0
        ∧ allOperations opts p w
          = match registry w0 !! m with
            | Some d =>
                if negb (includes (excludeModels_ opts) m)
                   && negb (includes (excludedCacheMethods opts) (operation p))
                   && negb (includes defaultMutationMethods (operation p))
                then cached opts p m d w0
                else uncached opts p m w0
            | None => uncached opts p m w0
            end.
Proof.
  intros Hm Hne. unfold allOperations. rewrite Hm. simpl.
  destruct (String.eqb_spec m "") as [-> | _]; [done |]. simpl.
  rewrite run_bind.
  destruct (definitions_defined_by opts p m w) as (w0 & Hrun & Hdef).
  rewrite Hrun. exists w0. split; [done |]. split; [done |].
  rewrite run_bind. unfold get_world at 1.
  destruct (registry w0 !! m); [| done].
  by destruct (negb _ && negb _ && negb _).
Qed.

(** A write on a model always takes the [else] branch. *)
Lemma allOperations_write (p : Params) (m : string) (w : World) :
  model p = Some m → m ≠ "" →
  includes defaultMutationMethods (operation p) = true →
  ∃ w0, defined_by m w w0 ∧ allOperations opts p w = uncached opts p m w0.
Proof.
  intros Hm Hne Hmut.
  destruct (allOperations_model p m w Hm Hne) as (w0 & _ & Hdef & ->).
  exists w0. split; [done |]. rewrite Hmut.
  destruct (registry w0 !! m); [| done].
  by rewrite !andb_false_r.
Qed.

End Purges.

(** ** Writes and their invalidation *)

Lemma elem_of_flat_map {A B} (f : A → list B) (l : list A) (y : B) :
  y ∈ flat_map f l ↔ ∃ x, x ∈ l ∧ y ∈ f x.
Proof.
  rewrite list_elem_of_In, in_flat_map.
  split; intros (x & Hx & Hy); exists x;
    (split; [by apply list_elem_of_In | by apply list_elem_of_In]).
Qed.

Lemma purge_calls_app (evs evs' : list Event) :
  purge_calls (evs ++ evs') = purge_calls evs ++ purge_calls evs'.
Proof. apply filter_app. Qed.

Lemma purge_calls_none (evs : list Event) :
  Forall (λ ev, is_purge ev = false) evs → purge_calls evs = [].
Proof.
  unfold purge_calls. induction 1 as [| ev evs Hev _ IH]; [done |].
  rewrite filter_cons_False; [done |]. by rewrite Hev.
Qed.

Lemma purge_calls_definitions (m : string) (defs : list Event) :
  Forall (λ ev, ev = EvDefine m) defs → purge_calls defs = [].
Proof.
  intros Hdefs. apply purge_calls_none.
  eapply Forall_impl; [exact Hdefs |]. by intros ev ->.
Qed.

Lemma purge_calls_of_calls (redis : option Redis) (l : list Purge) :
  purge_calls (flat_map (purge_call redis) l) = flat_map (purge_call redis) l.
Proof.
  unfold purge_calls. induction l as [| [pattern | pattern] l IH]; [done | |].
  - simpl. by rewrite filter_cons_True, IH.
  - simpl. destruct redis; simpl; [| done]. by rewrite filter_cons_True, IH.
Qed.

Lemma settle_events_no_purge (fs : Faults) (redis : option Redis) (l : list Purge) :
  Forall (λ ev, is_purge ev = false) (flat_map (settle_events fs redis) l).
Proof.
  induction l as [| [pattern | pattern] l IH]; simpl; [done | |];
    apply Forall_app; (split; [| done]).
  - destruct (invalidate_fault fs pattern); by repeat constructor.
  - destruct redis; [| done]. destruct (del_fault fs pattern); by repeat constructor.
Qed.

Section Writes.
Context `{CacheMethods} `{StringPrototype} (opts : CreatePrismaRedisCache).

(** What a successful write on model [m] does: possibly the definition of
    the cache function of [m], the executor call, then the call of every
    purge of [invalidateList], and only then what the purges log when they
    settle; it fulfils with the executor's result. *)
Lemma successful_write (p : Params) (m : string) (w : World) (r : Result) :
  model p = Some m → m ≠ "" →
  includes defaultMutationMethods (operation p) = true →
  query p (args p) (upstream_calls w) = Fulfilled r →
  let redis := redis_of_storage opts in
  let l := invalidateList opts m redis in
  outcome (allOperations opts p w) = Fulfilled r
  ∧ (∃ defs, Forall (λ ev, ev = EvDefine m) defs
       ∧ emitted (allOperations opts p) w
         = defs ++ EvQuery (args p)
             :: flat_map (purge_call redis) l
             ++ flat_map (settle_events (faults w) redis) l)
  ∧ (∀ k en, entries (after (allOperations opts p w)) !! k = Some en →
       entries w !! k = Some en)
  ∧ (∀ pattern, via_cache pattern ∈ l →
       invalidate_fault (faults w) pattern = None →
       ∀ k en, entries (after (allOperations opts p w)) !! k = Some en →
               existsb (glob pattern) (tags en) = false)
  ∧ (∀ pattern, via_redis pattern ∈ l → is_Some redis →
       del_fault (faults w) pattern = None →
       entries (after (allOperations opts p w)) !! pattern = None).
Proof.
  intros Hm Hne Hmut Hq redis l.
  destruct (allOperations_write opts p m w Hm Hne Hmut)
    as (w0 & (He & Hf & Hu & (defs & Ht & Hdefs) & _) & Hrun).
  rewrite <- Hu in Hq.
  destruct (uncached_write opts p m w0 r Hmut Hq)
    as (Hout & Htrace & Hkeep & Hgone & Hdel).
  rewrite Hf in Htrace, Hgone, Hdel. rewrite He in Hkeep.
  rewrite Hrun. split; [done |]. split; [| split; [done | split; done]].
  exists defs. split; [done |]. apply emitted_app.
  by rewrite Hrun, Htrace, Ht, <- app_assoc.
Qed.

(** The purge calls of a successful write are those of [invalidateList], in
    the order of the pushes, whatever fails. *)
Lemma write_purge_calls (p : Params) (m : string) (w : World) (r : Result) :
  model p = Some m → m ≠ "" →
  includes defaultMutationMethods (operation p) = true →
  query p (args p) (upstream_calls w) = Fulfilled r →
  purge_calls (emitted (allOperations opts p) w)
  = flat_map (purge_call (redis_of_storage opts))
      (invalidateList opts m (redis_of_storage opts)).
Proof.
  intros Hm Hne Hmut Hq.
  destruct (successful_write p m w r Hm Hne Hmut Hq)
    as (_ & (defs & Hdefs & ->) & _).
  rewrite purge_calls_app, (purge_calls_definitions m defs Hdefs).
  change (EvQuery (args p) :: ?l) with ([EvQuery (args p)] ++ l).
  rewrite !purge_calls_app, purge_calls_of_calls.
  rewrite (purge_calls_none (flat_map _ _)) by apply settle_events_no_purge.
  by rewrite app_nil_r.
Qed.

(** Every purge pushed on [invalidateList] has its call in the trace. *)
Lemma pushed_is_issued (p : Params) (m : string) (w : World) (r : Result)
    (pr : Purge) (ev : Event) :
  model p = Some m → m ≠ "" →
  includes defaultMutationMethods (operation p) = true →
  query p (args p) (upstream_calls w) = Fulfilled r →
  pr ∈ invalidateList opts m (redis_of_storage opts) →
  ev ∈ purge_call (redis_of_storage opts) pr →
  ev ∈ emitted (allOperations opts p) w.
Proof.
  intros Hm Hne Hmut Hq Hpr Hev.
  destruct (successful_write p m w r Hm Hne Hmut Hq)
    as (_ & (defs & _ & ->) & _).
  apply elem_of_app. right. apply elem_of_cons. right.
  apply elem_of_app. left. apply elem_of_flat_map. by exists pr.
Qed.

(** A write whose executor call fails issues no purge and leaves every
    stored entry in place; the caller gets the executor's failure. *)
Lemma failed_write (p : Params) (m : string) (w : World) (e : Err) :
  model p = Some m → m ≠ "" →
  includes defaultMutationMethods (operation p) = true →
  query p (args p) (upstream_calls w) = Rejected e →
  outcome (allOperations opts p w) = Rejected e
  ∧ Forall (λ ev, is_purge ev = false) (emitted (allOperations opts p) w)
  ∧ entries (after (allOperations opts p w)) = entries w.
Proof.
  intros Hm Hne Hmut Hq.
  destruct (allOperations_write opts p m w Hm Hne Hmut)
    as (w0 & (He & _ & Hu & (defs & Ht & Hdefs) & _) & Hrun).
  rewrite <- Hu in Hq. rewrite Hrun, (uncached_failed opts p m w0 e Hq).
  split; [done |]. split; [| done].
  erewrite emitted_app; [| by rewrite Hrun, (uncached_failed opts p m w0 e Hq);
                            simpl; rewrite Ht, <- app_assoc].
  apply Forall_app. split; [| by repeat constructor].
  eapply Forall_impl; [exact Hdefs |]. by intros ev ->.
Qed.

(** Purges of the raw store are only pushed with a client. *)
Lemma via_redis_needs_client (m pattern : string) (redis : option Redis) :
  via_redis pattern ∈ invalidateList opts m redis → is_Some redis.
Proof.
  destruct redis as [r |]; [by eauto |]. intros Hin. exfalso.
  unfold invalidateList in Hin. rewrite !elem_of_app in Hin.
  destruct Hin as [Hin | [Hin | [Hin | Hin]]].
  - absent Hin.
  - absent Hin.
  - destruct (useContainsInvalidation_ opts); simpl in Hin; absent Hin.
  - apply elem_of_flat_map in Hin as (mo & _ & Hin).
    unfold modelPurges in Hin. apply elem_of_app in Hin as [Hin | Hin].
    + destruct (ModelOptions.invalidateRelated mo) as [rel |];
        [| absent Hin].
      apply elem_of_flat_map in Hin as (R & _ & Hin).
      unfold relatedPurges in Hin.
      match type of Hin with
      | context [if ?c then _ else _] => destruct c
      end; simpl in Hin; absent Hin.
    + destruct (ModelOptions.customInvalidate mo) as [keys |];
        [| absent Hin].
      apply elem_of_flat_map in Hin as (key & _ & Hin).
      unfold customPurges in Hin. absent Hin.
Qed.

(** C2, as amended. A successful write on model [m] issues the pattern
    deletes [*m~*] and [m~*] against the cache layer and, when the storage
    is Redis with a client, issues [*m~*] against the raw store. *)
Theorem write_purges_direct_patterns (p : Params) (m : string) (w : World)
    (r : Result) :
  model p = Some m → m ≠ "" →
  includes defaultMutationMethods (operation p) = true →
  query p (args p) (upstream_calls w) = Fulfilled r →
  EvInvalidateAll (tagged_anywhere m) ∈ emitted (allOperations opts p) w
  ∧ EvInvalidateAll (tagged m) ∈ emitted (allOperations opts p) w
  ∧ (is_Some (redis_of_storage opts) →
     EvRedisDel (tagged_anywhere m) ∈ emitted (allOperations opts p) w).
Proof.
  intros Hm Hne Hmut Hq. split; [| split].
  - eapply (pushed_is_issued p m w r (via_cache (tagged_anywhere m))); try done.
    + unfold invalidateList. member.
    + simpl. member.
  - eapply (pushed_is_issued p m w r (via_cache (tagged m))); try done.
    + unfold invalidateList. member.
    + simpl. member.
  - intros [c Hc].
    eapply (pushed_is_issued p m w r (via_redis (tagged_anywhere m))); try done.
    + unfold invalidateList. rewrite Hc. member.
    + simpl. rewrite Hc. member.
Qed.

(** C3. Invalidation runs only once the executor has carried out the write:
    when the executor fails, the hook rejects with its error, no purge is
    issued and the stored entries are unchanged.  When it succeeds, the call
    of every purge is made, in the order of the pushes, before any purge
    settles; whatever failures the store of the cache layer or the raw
    client then report, the hook fulfils with the executor's result, and
    every purge whose store does not fail has done its work: no entry with
    a tag matching the pattern of a purge of the cache layer is left, and
    none under the key of a delete of the raw store. *)
Theorem invalidation_follows_the_write (p : Params) (m : string) (w : World) :
  model p = Some m → m ≠ "" →
  includes defaultMutationMethods (operation p) = true →
  (∀ e, query p (args p) (upstream_calls w) = Rejected e →
     outcome (allOperations opts p w) = Rejected e
     ∧ purge_calls (emitted (allOperations opts p) w) = []
     ∧ entries (after (allOperations opts p w)) = entries w)
  ∧ (∀ r, query p (args p) (upstream_calls w) = Fulfilled r →
       outcome (allOperations opts p w) = Fulfilled r
       ∧ (∃ defs, Forall (λ ev, ev = EvDefine m) defs
            ∧ emitted (allOperations opts p) w
              = defs ++ EvQuery (args p)
                  :: flat_map (purge_call (redis_of_storage opts))
                       (invalidateList opts m (redis_of_storage opts))
                  ++ flat_map (settle_events (faults w) (redis_of_storage opts))
                       (invalidateList opts m (redis_of_storage opts)))
       ∧ (∀ pattern k en,
            via_cache pattern ∈ invalidateList opts m (redis_of_storage opts) →
            invalidate_fault (faults w) pattern = None →
            entries (after (allOperations opts p w)) !! k = Some en →
            existsb (glob pattern) (tags en) = false)
       ∧ (∀ pattern,
            via_redis pattern ∈ invalidateList opts m (redis_of_storage opts) →
            del_fault (faults w) pattern = None →
            entries (after (allOperations opts p w)) !! pattern = None)).
Proof.
  intros Hm Hne Hmut. split.
  - intros e Hq.
    destruct (failed_write p m w e Hm Hne Hmut Hq) as (Hout & Hnone & Hent).
    split; [done |]. split; [by apply purge_calls_none | done].
  - intros r Hq.
    destruct (successful_write p m w r Hm Hne Hmut Hq)
      as (Hout & Hev & _ & Hgone & Hdel).
    split; [done |]. split; [done |]. split.
    + intros pattern k en Hin Hok Hk. by apply (Hgone pattern Hin Hok k).
    + intros pattern Hin Hok. apply (Hdel pattern Hin); [| done].
      by apply (via_redis_needs_client m pattern).
Qed.

(** C4, as amended. A successful write on model [m] issues, for every
    model [R] that an element [mo] of [models] for [m] lists in
    [invalidateRelated], the pattern deletes [*R~*] and [R~*] against the
    cache layer, and the quoted patterns of [R] (against the cache layer
    and, with a Redis client, the raw store) exactly when the
    [useContainsInvalidation] of [mo] - the element of the written model -
    is true or, being unset, leaves the decision to a true global flag.
    When [mo] is the only element of [models] for [m], these are, with the
    purges of [m] itself and the patterns of [customInvalidate], all the
    purges there are: the elements of other models, that of [R] among them,
    have no part in it. *)
Theorem write_purges_related_models (p : Params) (m : string) (w : World)
    (r : Result) (mo : ModelOptions.t) :
  model p = Some m → m ≠ "" →
  includes defaultMutationMethods (operation p) = true →
  query p (args p) (upstream_calls w) = Fulfilled r →
  mo ∈ default [] (models opts) →
  ModelOptions.model mo = m →
  let raw (patterns : list string) :=
    if redis_of_storage opts is Some _ then EvRedisDel <$> patterns else [] in
  let global := default false (useContainsInvalidation opts) in
  let contains :=
    match ModelOptions.useContainsInvalidation mo with
    | Some flag => flag
    | None => global
    end in
  let related (R : string) :=
    [EvInvalidateAll (tagged_anywhere R); EvInvalidateAll (tagged R)]
    ++ (if contains then
          [EvInvalidateAll (quoted R); EvInvalidateAll (quoted (toLowerCase R))]
          ++ raw [quoted R; quoted (toLowerCase R)]
        else []) in
  (∀ R ev, R ∈ default [] (ModelOptions.invalidateRelated mo) →
     ev ∈ related R → ev ∈ emitted (allOperations opts p) w)
  ∧ (List.filter (λ x, String.eqb (ModelOptions.model x) m)
       (default [] (models opts)) = [mo] →
     purge_calls (emitted (allOperations opts p) w)
     = [EvInvalidateAll (tagged_anywhere m); EvInvalidateAll (tagged m)]
       ++ raw [tagged_anywhere m]
       ++ (if global then
             [EvInvalidateAll (quoted m); EvInvalidateAll (quoted (toLowerCase m))]
             ++ raw [quoted m; quoted (toLowerCase m)]
           else [])
       ++ flat_map related (default [] (ModelOptions.invalidateRelated mo))
       ++ flat_map (λ customKey, EvInvalidateAll customKey :: raw [customKey])
            (default [] (ModelOptions.customInvalidate mo))).
Proof.
  intros Hm Hne Hmut Hq Hmo Hmodel raw global contains related.
  assert (Hrelated : ∀ R,
    flat_map (purge_call (redis_of_storage opts))
      (relatedPurges (redis_of_storage opts) contains R) = related R).
  { intros R. unfold relatedPurges, related, raw.
    by destruct contains, (redis_of_storage opts). }
  assert (Hcustom : ∀ customKey,
    flat_map (purge_call (redis_of_storage opts))
      (customPurges (redis_of_storage opts) customKey)
    = EvInvalidateAll customKey :: raw [customKey]).
  { intros customKey. unfold customPurges, raw.
    by destruct (redis_of_storage opts). }
  assert (Hpushes :
    flat_map (purge_call (redis_of_storage opts))
      (modelPurges opts (redis_of_storage opts) mo)
    = flat_map related (default [] (ModelOptions.invalidateRelated mo))
      ++ flat_map (λ customKey, EvInvalidateAll customKey :: raw [customKey])
           (default [] (ModelOptions.customInvalidate mo))).
  { unfold modelPurges. rewrite flat_map_app. f_equal.
    - destruct (ModelOptions.invalidateRelated mo) as [rel |]; [| done].
      rewrite flat_map_flat_map. by apply flat_map_ext.
    - destruct (ModelOptions.customInvalidate mo) as [keys |]; [| done].
      rewrite flat_map_flat_map. by apply flat_map_ext. }
  split.
  - intros R ev HR Hev.
    destruct (ModelOptions.invalidateRelated mo) as [rel |] eqn:Hrel;
      [| by apply elem_of_nil in HR].
    rewrite <- Hrelated in Hev.
    apply elem_of_flat_map in Hev as (pr & Hpr & Hev).
    apply (pushed_is_issued p m w r pr); try done.
    unfold invalidateList. rewrite !elem_of_app. right. right. right.
    apply elem_of_flat_map. exists mo. split.
    + apply list_elem_of_In, filter_In. split; [by apply list_elem_of_In |].
      by apply String.eqb_eq.
    + unfold modelPurges. rewrite Hrel. apply elem_of_app. left.
      apply elem_of_flat_map. by exists R.
  - intros Honly.
    rewrite (write_purge_calls p m w r Hm Hne Hmut Hq).
    unfold invalidateList. rewrite Honly.
    rewrite !flat_map_app. simpl flat_map at 5. rewrite app_nil_r, Hpushes.
    unfold raw, global, useContainsInvalidation_.
    by destruct (redis_of_storage opts), (default false (useContainsInvalidation opts)).
Qed.

End Writes.

(** ** Reads through the cache function *)

Section Reads.
Context `{CacheMethods} `{StringPrototype} (opts : CreatePrismaRedisCache).

(** Unless the operation is excluded, the model has its cache function
    once the definitions are done. *)
Lemma definitions_define (p : Params) (m : string) (w w0 : World) :
  definitions opts p m w = (Fulfilled tt, w0) →
  includes (excludeModels_ opts) m = false →
  includes (excludedCacheMethods opts) (operation p) = false →
  is_Some (registry w !! m)
  ∨ excluded_in_models opts m (operation p) = false →
  is_Some (registry w0 !! m).
Proof.
  intros Hrun Hmodel Hmethod Hserved. unfold definitions in Hrun.
  rewrite Hmethod in Hrun. simpl in Hrun. rewrite run_bind in Hrun.
  destruct (forEach_defined_by opts (args p) m (operation p)
              (default [] (models opts)) w) as (w1 & Hrun1 & Hd1).
  rewrite Hrun1 in Hrun.
  destruct (defineModel_defined_by opts m (operation p) w1) as (w2 & Hrun2 & Hd2).
  assert (w2 = w0) as -> by congruence.
  destruct (registry w1 !! m) as [d |] eqn:Hreg.
  { destruct Hd2 as (_ & _ & _ & _ & _ & Hsame).
    destruct Hsame as [-> _]; rewrite Hreg; eauto. }
  destruct Hserved as [Hdefined | Hnot].
  { destruct Hd1 as (_ & _ & _ & _ & _ & Hsame).
    destruct (Hsame Hdefined) as [Heq _]. rewrite Heq in Hreg.
    destruct Hdefined as [d Hd]. congruence. }
  unfold defineModel in Hrun2. rewrite run_bind in Hrun2. simpl in Hrun2.
  rewrite Hreg, Hmodel in Hrun2. simpl in Hrun2.
  assert (includes_opt
            (excludedCacheMethodsInModels opts m ≫= ModelOptions.excludeMethods)
            (operation p) = false) as Hfree.
  { unfold excludedCacheMethodsInModels.
    destruct (List.find _ _) as [mo |] eqn:Hfind; [| done]. simpl.
    apply find_some in Hfind as [Hin Hmo].
    apply andb_true_iff in Hmo as [Hmo _].
    unfold excluded_in_models in Hnot.
    rewrite <- not_true_iff_false, existsb_exists in Hnot.
    apply not_true_iff_false. intros Hincl. apply Hnot.
    exists mo. split; [done |]. by rewrite Hmo, Hincl. }
  rewrite Hfree in Hrun2. simpl in Hrun2.
  injection Hrun2 as <-. simpl. rewrite lookup_insert_eq. eauto.
Qed.

(** The dispatch of a read that the cache serves. *)
Lemma allOperations_read (p : Params) (m : string) (w : World) :
  model p = Some m → m ≠ "" →
  includes (excludeModels_ opts) m = false →
  includes (excludedCacheMethods opts) (operation p) = false →
  includes defaultMutationMethods (operation p) = false →
  is_Some (registry w !! m)
  ∨ excluded_in_models opts m (operation p) = false →
  ∃ w0 d, defined_by m w w0 ∧ registry w0 !! m = Some d
          ∧ allOperations opts p w = cached opts p m d w0.
Proof.
  intros Hm Hne Hmodel Hmethod Hmut Hserved.
  destruct (allOperations_model opts p m w Hm Hne) as (w0 & Hrun & Hdef & ->).
  destruct (definitions_define p m w w0 Hrun Hmodel Hmethod Hserved) as [d Hd].
  exists w0, d. split; [done |]. split; [done |].
  by rewrite Hd, Hmodel, Hmethod, Hmut.
Qed.

(** The dispatch of a read that is excluded for all models, or whose
    model is excluded. *)
Lemma allOperations_excluded (p : Params) (m : string) (w : World) :
  model p = Some m → m ≠ "" →
  includes (excludeModels_ opts) m = true
  ∨ includes (excludedCacheMethods opts) (operation p) = true →
  ∃ w0, defined_by m w w0 ∧ allOperations opts p w = uncached opts p m w0.
Proof.
  intros Hm Hne Hexcl.
  destruct (allOperations_model opts p m w Hm Hne) as (w0 & _ & Hdef & ->).
  exists w0. split; [done |].
  destruct (registry w0 !! m); [| done].
  destruct Hexcl as [-> | ->]; simpl; [done |]. by rewrite andb_false_r.
Qed.

(** The [else] branch on an operation that is not a mutation. *)
Lemma uncached_read (p : Params) (m : string) (w : World) :
  includes defaultMutationMethods (operation p) = false →
  uncached opts p m w
  = (query p (args p) (upstream_calls w),
     count_upstream (log_event (EvQuery (args p)) w)).
Proof.
  intros Hmut. unfold uncached. rewrite run_bind, run_fetchFromPrisma, Hmut.
  by destruct (query p (args p) (upstream_calls w)).
Qed.

Lemma fallback_run (p : Params) (err : Err) (w : World) :
  fallback p err w
  = match query p (args p) (upstream_calls w) with
    | Fulfilled r =>
        (Fulfilled r,
         log_event (EvConsoleError err)
           (count_upstream (log_event (EvQuery (args p)) w)))
    | Rejected e' =>
        (Rejected e', count_upstream (log_event (EvQuery (args p)) w))
    end.
Proof.
  unfold fallback. rewrite run_bind, run_fetchFromPrisma.
  by destruct (query p (args p) (upstream_calls w)).
Qed.

(** Whatever makes the cache function reject, the hook then calls the
    executor itself and settles as that call does. *)
Lemma cached_fallback (p : Params) (m : string) (d : CacheDef)
    (w w1 : World) (e : Err) :
  cacheFunction (cacheOptions_ttl opts) m d (call_args p) w = (Rejected e, w1) →
  cached opts p m d w
  = match query p (args p) (upstream_calls w1) with
    | Fulfilled r =>
        (Fulfilled r,
         log_event (EvConsoleError e)
           (count_upstream (log_event (EvQuery (args p)) w1)))
    | Rejected e' =>
        (Rejected e', count_upstream (log_event (EvQuery (args p)) w1))
    end.
Proof.
  intros Hcall. unfold cached, try_catch. rewrite Hcall.
  apply fallback_run.
Qed.

(** With a lifetime of zero the cache function is the fetch function. *)
Lemma cacheFunction_disabled (t : nat) (m : string) (d : CacheDef)
    (a : CallArgs.t) (w : World) :
  default t (ttl d) = 0 →
  cacheFunction t m d a w = run_func (func d) a w.
Proof. intros Hzero. unfold cacheFunction. by rewrite Hzero. Qed.

Lemma cacheFunction_unreachable (t : nat) (m : string) (d : CacheDef)
    (a : CallArgs.t) (w : World) (e : Err) :
  default t (ttl d) ≠ 0 →
  get_fault (faults w) = Some e →
  cacheFunction t m d a w = (Rejected e, log_event (EvGet (storageKey m a)) w).
Proof.
  intros Httl Hfault. unfold cacheFunction.
  destruct (Nat.eqb_spec (default t (ttl d)) 0) as [Hzero | _]; [done |].
  run. by rewrite Hfault.
Qed.

Lemma cacheFunction_hit (t : nat) (m : string) (d : CacheDef)
    (a : CallArgs.t) (w : World) (en : CacheEntry) :
  default t (ttl d) ≠ 0 →
  get_fault (faults w) = None →
  entries w !! storageKey m a = Some en →
  cacheFunction t m d a w
  = (Fulfilled (value en), log_event (EvGet (storageKey m a)) w).
Proof.
  intros Httl Hfault Hen. unfold cacheFunction.
  destruct (Nat.eqb_spec (default t (ttl d)) 0) as [Hzero | _]; [done |].
  run. by rewrite Hfault, Hen.
Qed.

Lemma cacheFunction_failed_fetch (t : nat) (m : string) (d : CacheDef)
    (a : CallArgs.t) (w : World) (e : Err) :
  default t (ttl d) ≠ 0 →
  get_fault (faults w) = None →
  entries w !! storageKey m a = None →
  CallArgs.cb a (fetch_args (func d) a) (upstream_calls w) = Rejected e →
  cacheFunction t m d a w
  = (Rejected e,
     count_upstream (log_event (EvQuery (fetch_args (func d) a))
                       (log_event (EvGet (storageKey m a)) w))).
Proof.
  intros Httl Hfault Hmiss Hq. unfold cacheFunction, run_func, fetchFromPrisma.
  destruct (Nat.eqb_spec (default t (ttl d)) 0) as [Hzero | _]; [done |].
  run. rewrite Hfault, Hmiss.
  change (upstream_calls (log_event (EvGet (storageKey m a)) w))
    with (upstream_calls w).
  by rewrite Hq.
Qed.

Lemma cacheFunction_failed_set (t : nat) (m : string) (d : CacheDef)
    (a : CallArgs.t) (w : World) (r : Result) (e : Err) :
  default t (ttl d) ≠ 0 →
  get_fault (faults w) = None →
  entries w !! storageKey m a = None →
  CallArgs.cb a (fetch_args (func d) a) (upstream_calls w) = Fulfilled r →
  set_fault (faults w) = Some e →
  cacheFunction t m d a w
  = (Rejected e,
     log_event (EvSet (storageKey m a))
       (count_upstream (log_event (EvQuery (fetch_args (func d) a))
                          (log_event (EvGet (storageKey m a)) w)))).
Proof.
  intros Httl Hfault Hmiss Hq Hset.
  unfold cacheFunction, run_func, fetchFromPrisma.
  destruct (Nat.eqb_spec (default t (ttl d)) 0) as [Hzero | _]; [done |].
  run. rewrite Hfault, Hmiss.
  change (upstream_calls (log_event (EvGet (storageKey m a)) w))
    with (upstream_calls w).
  by rewrite Hq, Hset.
Qed.

Lemma cacheFunction_stored (t : nat) (m : string) (d : CacheDef)
    (a : CallArgs.t) (w : World) (r : Result) :
  default t (ttl d) ≠ 0 →
  get_fault (faults w) = None →
  entries w !! storageKey m a = None →
  CallArgs.cb a (fetch_args (func d) a) (upstream_calls w) = Fulfilled r →
  set_fault (faults w) = None →
  cacheFunction t m d a w
  = (Fulfilled r,
     set_entries
       (insert (storageKey m a)
          {| value := r;
             tags := run_references (references d) a (getKey a);
             lifetime := default t (ttl d) |})
       (log_event (EvSet (storageKey m a))
          (count_upstream (log_event (EvQuery (fetch_args (func d) a))
                             (log_event (EvGet (storageKey m a)) w))))).
Proof.
  intros Httl Hfault Hmiss Hq Hset.
  unfold cacheFunction, run_func, fetchFromPrisma.
  destruct (Nat.eqb_spec (default t (ttl d)) 0) as [Hzero | _]; [done |].
  run. rewrite Hfault, Hmiss.
  change (upstream_calls (log_event (EvGet (storageKey m a)) w))
    with (upstream_calls w).
  by rewrite Hq, Hset.
Qed.

Lemma cacheFunction_cases (t : nat) (m : string) (d : CacheDef)
    (a : CallArgs.t) (w : World) :
  CacheCall t m d a w (cacheFunction t m d a w).
Proof.
  destruct (decide (default t (ttl d) = 0)) as [Hzero | Httl].
  { rewrite cacheFunction_disabled by done. by apply call_disabled. }
  destruct (get_fault (faults w)) as [e |] eqn:Hget.
  { rewrite (cacheFunction_unreachable t m d a w e) by done.
    by apply call_unreachable. }
  destruct (entries w !! storageKey m a) as [en |] eqn:Hen.
  { rewrite (cacheFunction_hit t m d a w en) by done. by apply call_hit. }
  destruct (CallArgs.cb a (fetch_args (func d) a) (upstream_calls w))
    as [r | e] eqn:Hq.
  - destruct (set_fault (faults w)) as [e |] eqn:Hset.
    + rewrite (cacheFunction_failed_set t m d a w r e) by done.
      by eapply call_failed_set.
    + rewrite (cacheFunction_stored t m d a w r) by done.
      by apply call_stored.
  - rewrite (cacheFunction_failed_fetch t m d a w e) by done.
    by apply call_failed_fetch.
Qed.

End Reads.

Section ReadFailures.
Context `{CacheMethods} `{StringPrototype} (opts : CreatePrismaRedisCache).

(** The [try ... catch] around the cache function falls back as
    [falls_back] says. *)
Lemma cached_falls_back (p : Params) (m : string) (d : CacheDef) (w : World) :
  ∃ evs, trace (after (cached opts p m d w)) = trace w ++ evs
         ∧ falls_back p w (cached opts p m d w) evs.
Proof.
  unfold cached, try_catch.
  destruct (cacheFunction_cases (cacheOptions_ttl opts) m d (call_args p) w)
    as [Hzero | e Httl Hget | en Httl Hget Hen | e Httl Hget Hen Hq
        | r e Httl Hget Hen Hq Hset | r Httl Hget Hen Hq Hset];
    unfold run_func, fetchFromPrisma; simpl in *;
    try destruct (query p (fetch_args (func d) (call_args p)) (upstream_calls w))
      as [r0 | e0] eqn:Hq0;
    rewrite ?fallback_run; simpl;
    try match goal with
        | |- context [match query p (args p) ?n with _ => _ end] =>
            destruct (query p (args p) n) as [r1 | e1] eqn:Hq1
        end;
    simpl; rewrite <- ?app_assoc; simpl;
    (eexists; split; [reflexivity |]);
    unfold falls_back, outcome, after; simpl;
    (split; [| split]);
    try (intros e' Hout; try discriminate Hout; split; [lia | congruence]);
    try (intros e' k Hfault Hin; try congruence; try absent Hin).
  all: try (assert (e' = e) as -> by congruence).
  all: repeat split; try done; try congruence.
  all: try (intros r' _; repeat first [apply list_elem_of_here | apply list_elem_of_further]).
Qed.

(** C6. A failure of the store of the cache layer never fails a read.
    For an operation that is not a mutation: whenever the hook rejects, it
    rejects with the error of the direct call of the executor it made last,
    never with an error of the store; and whenever it reads or writes the
    store and the store fails, be it on the read or on the write of the
    fetched result, the hook calls the executor directly on the arguments
    of the operation and settles as that call settles, logs the error of
    the store once that call has succeeded, and stores nothing. *)
Theorem store_failure_falls_back_to_executor (p : Params) (w : World) :
  includes defaultMutationMethods (operation p) = false →
  (∀ e, outcome (allOperations opts p w) = Rejected e →
     upstream_calls w < upstream_calls (after (allOperations opts p w))
     ∧ query p (args p)
         (pred (upstream_calls (after (allOperations opts p w))))
       = Rejected e)
  ∧ (∀ e k,
       get_fault (faults w) = Some e →
       EvGet k ∈ emitted (allOperations opts p) w →
       outcome (allOperations opts p w) = query p (args p) (upstream_calls w)
       ∧ upstream_calls (after (allOperations opts p w)) = S (upstream_calls w)
       ∧ (∀ r, outcome (allOperations opts p w) = Fulfilled r →
            EvConsoleError e ∈ emitted (allOperations opts p) w)
       ∧ entries (after (allOperations opts p w)) = entries w)
  ∧ (∀ e k,
       set_fault (faults w) = Some e →
       EvSet k ∈ emitted (allOperations opts p) w →
       outcome (allOperations opts p w)
       = query p (args p) (S (upstream_calls w))
       ∧ upstream_calls (after (allOperations opts p w))
         = S (S (upstream_calls w))
       ∧ (∀ r, outcome (allOperations opts p w) = Fulfilled r →
            EvConsoleError e ∈ emitted (allOperations opts p) w)
       ∧ entries (after (allOperations opts p w)) = entries w).
Proof.
  intros Hmut.
  assert (∀ w0, falls_back p w0 (fetchFromPrisma (query p) (args p) w0)
                  [EvQuery (args p)]) as Hdirect.
  { intros w0. unfold falls_back, fetchFromPrisma, outcome, after. simpl.
    split; [| split].
    - intros e Hout. split; [lia | done].
    - intros e k _ Hin. absent Hin.
    - intros e k _ Hin. absent Hin. }
  assert (∀ (run : M Result) w0 defs evs,
    allOperations opts p w = run w0 →
    entries w0 = entries w → faults w0 = faults w →
    upstream_calls w0 = upstream_calls w →
    trace w0 = trace w ++ defs →
    Forall (λ ev, is_cache_io ev = false) defs →
    trace (after (run w0)) = trace w0 ++ evs →
    falls_back p w0 (run w0) evs →
    falls_back p w (allOperations opts p w)
      (emitted (allOperations opts p) w)) as Hlift.
  { intros run w0 defs evs Heq He Hf Hu Ht Hdefs Hevs (Hrej & Hget & Hset).
    assert (emitted (allOperations opts p) w = defs ++ evs) as ->.
    { apply emitted_app. by rewrite Heq, Hevs, Ht, <- app_assoc. }
    assert (∀ ev, is_cache_io ev = true → ev ∈ defs ++ evs → ev ∈ evs) as Hio.
    { intros ev Hev [Hin | Hin]%elem_of_app; [| done].
      rewrite Forall_forall in Hdefs. apply Hdefs in Hin. congruence. }
    rewrite Heq. rewrite Hf, Hu, He in *. split; [done |]. split.
    - intros e k Hfault Hin. apply Hio in Hin; [| done].
      destruct (Hget e k Hfault Hin) as (? & ? & Hlog & ?).
      repeat split; try done. intros r Hr. apply elem_of_app. right. eauto.
    - intros e k Hfault Hin. apply Hio in Hin; [| done].
      destruct (Hset e k Hfault Hin) as (? & ? & Hlog & ?).
      repeat split; try done. intros r Hr. apply elem_of_app. right. eauto. }
  fold (falls_back p w (allOperations opts p w)
          (emitted (allOperations opts p) w)).
  destruct (model p) as [m |] eqn:Hm;
    [destruct (String.eqb_spec m "") as [-> | Hne] |];
    try (apply (Hlift (fetchFromPrisma (query p) (args p)) w [] [EvQuery (args p)]);
         try done; [by apply allOperations_no_model; auto | by rewrite app_nil_r]).
  destruct (allOperations_model opts p m w Hm Hne)
    as (w0 & _ & (He & Hf & Hu & (defs & Ht & Hdefs) & _) & Hrun).
  assert (Forall (λ ev, is_cache_io ev = false) defs) as Hdefs'.
  { eapply Forall_impl; [exact Hdefs |]. by intros ev ->. }
  assert (uncached opts p m w0 = fetchFromPrisma (query p) (args p) w0)
    as Huncached by by rewrite uncached_read.
  destruct (registry w0 !! m) as [d |].
  - destruct (negb _ && negb _ && negb _).
    + destruct (cached_falls_back p m d w0) as (evs & Hevs & Hfalls).
      by apply (Hlift (cached opts p m d) w0 defs evs).
    + apply (Hlift (uncached opts p m) w0 defs [EvQuery (args p)]); try done;
        by rewrite Huncached.
  - apply (Hlift (uncached opts p m) w0 defs [EvQuery (args p)]); try done;
      by rewrite Huncached.
Qed.

(** On a read that the cache serves and misses, with an executor whose
    call fails, the hook catches that failure and calls the executor a
    second time, directly: it settles as the second call settles, two
    executor calls have been made, and nothing is stored. *)
Lemma failed_fetch_is_retried_directly (p : Params) (m : string)
    (w : World) (e : Err) :
  model p = Some m → m ≠ "" →
  includes (excludeModels_ opts) m = false →
  includes (excludedCacheMethods opts) (operation p) = false →
  includes defaultMutationMethods (operation p) = false →
  is_Some (registry w !! m)
  ∨ excluded_in_models opts m (operation p) = false →
  get_fault (faults w) = None →
  entries w !! (m +:+ "~" +:+ args p) = None →
  (∀ a, query p a (upstream_calls w) = Rejected e) →
  outcome (allOperations opts p w) = query p (args p) (S (upstream_calls w))
  ∧ upstream_calls (after (allOperations opts p w)) = S (S (upstream_calls w))
  ∧ entries (after (allOperations opts p w)) = entries w.
Proof.
  intros Hm Hne Hmodel Hmethod Hmut Hserved Hfault Hmiss Hq.
  destruct (allOperations_read opts p m w Hm Hne Hmodel Hmethod Hmut Hserved)
    as (w0 & d & (He & Hf & Hu & _) & _ & ->).
  rewrite <- Hf in Hfault. rewrite <- He in Hmiss.
  destruct (decide (default (cacheOptions_ttl opts) (ttl d) = 0))
    as [Hzero | Httl].
  - rewrite (cached_fallback opts p m d w0
               (count_upstream
                  (log_event (EvQuery (fetch_args (func d) (call_args p))) w0))
               e).
    + simpl. rewrite Hu.
      destruct (query p (args p) (S (upstream_calls w))); simpl;
        by rewrite Hu, He.
    + rewrite cacheFunction_disabled by done.
      unfold run_func, fetchFromPrisma. simpl. by rewrite Hu, Hq.
  - rewrite (cached_fallback opts p m d w0 _ e
               (cacheFunction_failed_fetch _ m d (call_args p) w0 e Httl
                  Hfault Hmiss ltac:(simpl; rewrite Hu; apply Hq))).
    simpl. rewrite Hu.
    destruct (query p (args p) (S (upstream_calls w))); simpl;
      by rewrite Hu, He.
Qed.

(** A read that is excluded for every model, or whose model is excluded,
    goes to the executor and touches neither the store nor its entries. *)
Lemma excluded_read_skips_cache (p : Params) (m : string) (w : World) :
  model p = Some m → m ≠ "" →
  includes (excludeModels_ opts) m = true
  ∨ includes (excludedCacheMethods opts) (operation p) = true →
  includes defaultMutationMethods (operation p) = false →
  outcome (allOperations opts p w) = query p (args p) (upstream_calls w)
  ∧ Forall (λ ev, is_cache_io ev = false) (emitted (allOperations opts p) w)
  ∧ entries (after (allOperations opts p w)) = entries w.
Proof.
  intros Hm Hne Hexcl Hmut.
  destruct (allOperations_excluded opts p m w Hm Hne Hexcl)
    as (w0 & (He & _ & Hu & (defs & Ht & Hdefs) & _) & Hrun).
  rewrite Hrun, uncached_read by done. simpl.
  split; [by rewrite Hu |]. split; [| done].
  erewrite emitted_app;
    [| by rewrite Hrun, uncached_read by done; simpl; rewrite Ht, <- app_assoc].
  apply Forall_app. split; [| by repeat constructor].
  eapply Forall_impl; [exact Hdefs |]. by intros ev ->.
Qed.

End ReadFailures.

Lemma store_failure_falls_back_to_executor_witness :
  outcome (find_users rows unreachable) = Fulfilled "rows of {}"
  ∧ outcome (find_users rows unwritable) = Fulfilled "rows of {}".
Proof.
  split.
  - destruct (store_failure_falls_back_to_executor sixty_seconds
                (op "User" "findMany" "{}" rows) unreachable)
      as (_ & Hget & _); [reflexivity |].
    destruct (Hget "ECONNREFUSED" "User~{}") as (Hout & _);
      [reflexivity | vm_compute; listed |].
    exact Hout.
  - destruct (store_failure_falls_back_to_executor sixty_seconds
                (op "User" "findMany" "{}" rows) unwritable)
      as (_ & _ & Hset); [reflexivity |].
    destruct (Hset "READONLY" "User~{}") as (Hout & _);
      [reflexivity | vm_compute; listed |].
    exact Hout.
Defined.

(** ** The hook on sample operations *)

Lemma write_purges_direct_patterns_witness :
  EvRedisDel "*User~*" ∈ emitted delete_user_on_redis empty_world.
Proof.
  destruct (write_purges_direct_patterns on_redis
              (op "User" "delete" "{}" rows) "User" empty_world "rows of {}")
    as (_ & _ & Hraw);
    [reflexivity | discriminate | reflexivity | reflexivity |].
  apply Hraw. by eexists.
Defined.

(** C2, as stated, fails: with a Redis client configured, a successful
    [delete] on [User] issues [*User~*] and [User~*] against the cache
    layer, but [User~*] is never issued against the raw store. *)
Lemma raw_store_is_not_sent_the_plain_pattern :
  redis_of_storage on_redis = Some RedisClient
  ∧ outcome (delete_user_on_redis empty_world) = Fulfilled "rows of {}"
  ∧ emitted delete_user_on_redis empty_world
    = [EvDefine "User"; EvQuery "{}"; EvInvalidateAll "*User~*";
       EvInvalidateAll "User~*"; EvRedisDel "*User~*"]
  ∧ EvRedisDel "User~*" ∉ emitted delete_user_on_redis empty_world.
Proof.
  split; [reflexivity |]. split; [reflexivity |]. split; [by vm_compute |].
  evaluated.
Qed.

Lemma invalidation_follows_the_write_witness :
  outcome (delete_user_on_redis purges_fail) = Fulfilled "rows of {}"
  ∧ outcome (delete_user_failing purges_fail) = Rejected "P2024"
  ∧ purge_calls (emitted delete_user_failing purges_fail) = []
  ∧ entries (after (delete_user_failing purges_fail)) = entries purges_fail.
Proof.
  split.
  - destruct (invalidation_follows_the_write on_redis
                (op "User" "delete" "{}" rows) "User" purges_fail)
      as (_ & Hdone); [reflexivity | discriminate | reflexivity |].
    destruct (Hdone "rows of {}") as (Hout & _); [reflexivity | exact Hout].
  - destruct (invalidation_follows_the_write on_redis
                (op "User" "delete" "{}" flaky) "User" purges_fail)
      as (Hfailed & _); [reflexivity | discriminate | reflexivity |].
    apply (Hfailed "P2024"). reflexivity.
Defined.

(** The purges of a [delete] on [User] when every purge fails: all calls
    are made before any failure is reported, every failure is reported, and
    the write fulfils. *)
Example every_purge_is_issued_and_settles :
  outcome (delete_user_on_redis purges_fail) = Fulfilled "rows of {}"
  ∧ emitted delete_user_on_redis purges_fail
    = [EvDefine "User"; EvQuery "{}"; EvInvalidateAll "*User~*";
       EvInvalidateAll "User~*"; EvRedisDel "*User~*";
       EvOnError "ECONNRESET"; EvOnError "ECONNRESET";
       EvConsoleLog "ECONNRESET"].
Proof.
  split; by vm_compute.
Qed.

Lemma write_purges_related_models_witness :
  EvInvalidateAll (tagged "Comment") ∈ emitted (delete_post_with (Some false)) empty_world
  ∧ purge_calls (emitted (delete_post_with (Some false)) empty_world)
    = [EvInvalidateAll "*Post~*"; EvInvalidateAll "Post~*";
       EvInvalidateAll (quoted "Post"); EvInvalidateAll (quoted "post");
       EvInvalidateAll "*Comment~*"; EvInvalidateAll "Comment~*"].
Proof.
  destruct (write_purges_related_models
              (contains_with (post_and_comment (Some false)))
              (op "Post" "delete" "{}" rows) "Post" empty_world "rows of {}"
              (default (plain "Post") (head (post_and_comment (Some false)))))
    as (Hrelated & Hall);
    [reflexivity | discriminate | reflexivity | reflexivity
    | by apply list_elem_of_here | reflexivity |].
  split.
  - apply (Hrelated "Comment"); [by apply list_elem_of_here | listed].
  - unfold delete_post_with. rewrite Hall by reflexivity. reflexivity.
Defined.

(** C4, as stated, fails: [Comment] sets [useContainsInvalidation] for
    itself, [Post] (which lists [Comment] in [invalidateRelated]) and the
    global options leave it unset; a successful [delete] on [Post] purges
    [*Comment~*] and [Comment~*] but none of the quoted patterns of
    [Comment]. *)
Lemma flag_of_the_related_model_is_not_consulted :
  (ModelOptions.model <$> post_and_comment None) = ["Post"; "Comment"]
  ∧ ((ModelOptions.useContainsInvalidation <$> post_and_comment None)
     = [None; Some true])
  ∧ outcome (delete_post None empty_world) = Fulfilled "rows of {}"
  ∧ EvInvalidateAll (tagged_anywhere "Comment") ∈ emitted (delete_post None) empty_world
  ∧ EvInvalidateAll (tagged "Comment") ∈ emitted (delete_post None) empty_world
  ∧ (EvInvalidateAll (quoted "Comment") ∉ emitted (delete_post None) empty_world)
  ∧ (EvInvalidateAll (quoted (toLowerCase "Comment"))
     ∉ emitted (delete_post None) empty_world).
Proof.
  repeat split; try reflexivity; evaluated.
Qed.

(** C5 at a failing input. A [findMany] on [User] misses the cache and the
    call of the executor fails with [P2024]. The caller does not get that
    failure and the executor is not left alone: the hook calls it a second
    time and fulfils with the second answer. With an executor that fails
    every call the caller gets an error, but that of a second call. *)
Theorem failed_executor_is_called_again :
  flaky "{}" 0 = Rejected "P2024"
  ∧ entries empty_world !! "User~{}" = None
  ∧ outcome (find_users flaky empty_world) = Fulfilled "rows of {}"
  ∧ upstream_calls (after (find_users flaky empty_world)) = 2
  ∧ emitted (find_users flaky) empty_world
    = [EvDefine "User"; EvGet "User~{}"; EvQuery "{}"; EvQuery "{}";
       EvConsoleError "P2024"]
  ∧ entries (after (find_users flaky empty_world)) !! "User~{}" = None
  ∧ upstream_calls (after (find_users refusing empty_world)) = 2.
Proof.
  repeat split; by vm_compute.
Qed.

(** C1 at a failing input. [findUnique] is excluded for [User] in
    [models]; once a [findMany] on [User] has defined the cache function,
    a [findUnique] on [User] is served by it: the store is read, the
    executor is not called, and the value cached for [findMany] is what the
    caller gets. *)
Theorem excluded_method_is_served_from_cache :
  excluded_in_models (with_models user_without_findUnique 60) "User" "findUnique"
  = true
  ∧ outcome (find_unique_user
               (after (find_users_of user_without_findUnique empty_world)))
    = Fulfilled "rows of {}"
  ∧ emitted find_unique_user
      (after (find_users_of user_without_findUnique empty_world))
    = [EvGet "User~{}"]
  ∧ upstream_calls
      (after (find_unique_user
                (after (find_users_of user_without_findUnique empty_world))))
    = upstream_calls (after (find_users_of user_without_findUnique empty_world)).
Proof.
  repeat split; by vm_compute.
Qed.

(** C7 at a failing input. A [findMany] on [User], a model without
    [cacheKey], stores its result with the single tag [undefined~{}]: the
    closure reads [model] off the argument object of the cache function,
    which has no such property. *)
Theorem stored_tag_lacks_the_model_name :
  (tags <$> entries (after (find_users_of [plain "User"] empty_world)) !! "User~{}")
  = Some ["undefined~{}"]
  ∧ (tags <$> entries (after (find_users_of [plain "User"] empty_world)) !! "User~{}")
    ≠ Some ["User~{}"]
  ∧ (tags <$> entries (after (find_users rows empty_world)) !! "User~{}")
    = Some ["undefined~{}"].
Proof.
  repeat split; by vm_compute.
Qed.

(** ** Reads that share one call of the cache function *)

Section SingleFlight.
Context `{CacheMethods} `{StringPrototype} (opts : CreatePrismaRedisCache).

Lemma settle_all_fulfilled (n : nat) (r : Result) (w : World) :
  settle_all (replicate n (λ w, (Fulfilled r, w))) w
  = (Fulfilled (replicate n (Fulfilled r)), w).
Proof.
  induction n as [| n IH]; [done |].
  cbn [replicate settle_all]. rewrite run_bind. unfold settle at 1.
  rewrite run_bind, IH. done.
Qed.

(** When the one call of the cache function fulfils, every caller that
    joined it gets its value and no further executor call is made. *)
Lemma concurrent_reads_fulfilled (n : nat) (p : Params) (m : string)
    (d : CacheDef) (w w1 : World) (r : Result) :
  cacheFunction (cacheOptions_ttl opts) m d (call_args p) w = (Fulfilled r, w1) →
  concurrent_reads opts n p m d w = (Fulfilled (replicate n (Fulfilled r)), w1).
Proof.
  intros Hcall. unfold concurrent_reads. rewrite Hcall.
  apply settle_all_fulfilled.
Qed.

(** When the one call of the cache function rejects, every caller that
    joined it runs its own [catch] and calls the executor itself. *)
Lemma concurrent_reads_rejected (n : nat) (p : Params) (m : string)
    (d : CacheDef) (w w1 : World) (e : Err) :
  cacheFunction (cacheOptions_ttl opts) m d (call_args p) w = (Rejected e, w1) →
  upstream_calls (after (concurrent_reads opts n p m d w))
  = n + upstream_calls w1.
Proof.
  intros Hcall. unfold concurrent_reads. rewrite Hcall.
  unfold joined, try_catch. clear Hcall. revert w1.
  induction n as [| n IH]; intros w1; [done |].
  cbn [replicate settle_all]. rewrite run_bind. unfold settle at 1.
  rewrite fallback_run.
  destruct (query p (args p) (upstream_calls w1)); rewrite run_bind;
    match goal with
    | |- context [settle_all _ ?w2] =>
        specialize (IH w2); destruct (settle_all _ w2) as [[rs | e'] w3]
    end; unfold after in *; simpl in *; lia.
Qed.

End SingleFlight.

(** C10 at a failing input. Two reads of [User] with the same arguments
    share one call of the cache function of [User]. When the executor
    answers, it is called once and both callers get its rows. When its
    first call fails with [P2024], the call of the cache function rejects
    and each of the two callers runs its own [catch]: the executor has been
    called three times, and both callers get the rows of their own later
    call instead of the failure of the call they joined. *)
Theorem joined_readers_call_the_executor_again :
  registry defined_user !! "User" = Some user_function
  ∧ outcome (two_find_users rows defined_user)
    = Fulfilled [Fulfilled "rows of {}"; Fulfilled "rows of {}"]
  ∧ upstream_calls (after (two_find_users rows defined_user)) = 1
  ∧ flaky "{}" 0 = Rejected "P2024"
  ∧ outcome (two_find_users flaky defined_user)
    = Fulfilled [Fulfilled "rows of {}"; Fulfilled "rows of {}"]
  ∧ upstream_calls (after (two_find_users flaky defined_user)) = 3
  ∧ emitted (two_find_users flaky) defined_user
    = [EvGet "User~{}"; EvQuery "{}"; EvQuery "{}"; EvConsoleError "P2024";
       EvQuery "{}"; EvConsoleError "P2024"].
Proof.
  repeat split; by vm_compute.
Qed.

(** ** What the definitions register *)

Section Registered.
Context `{CacheMethods} `{StringPrototype} (opts : CreatePrismaRedisCache).

(** The definition made for an element of [models]. *)
Lemma forEach_registers (a : Args) (m operation : string)
    (ms : list ModelOptions.t) (w w1 : World) (d : CacheDef) :
  forEach ms (defineModels opts a m operation) w = (Fulfilled tt, w1) →
  registry w !! m = None →
  registry w1 !! m = Some d →
  ∃ mo, mo ∈ ms ∧ ModelOptions.model mo = m
        ∧ includes_opt (ModelOptions.excludeMethods mo) operation = false
        ∧ d = {| references := modelsReferences (ModelOptions.cacheKey mo);
                 ttl := Some (or_number (ModelOptions.cacheTime mo)
                                (cacheOptions_ttl opts));
                 func := modelsFetch a |}.
Proof.
  revert w. induction ms as [| mo ms IH]; intros w Hrun Hnone Hsome.
  - injection Hrun as <-. congruence.
  - simpl in Hrun. rewrite run_bind in Hrun.
    destruct (defineModels_defined_by opts a m operation mo w) as (w' & Hstep & Hd').
    rewrite Hstep in Hrun.
    destruct (registry w' !! m) as [d' |] eqn:Hreg'.
    + destruct (forEach_defined_by opts a m operation ms w')
        as (w'' & Hrest & (_ & _ & _ & _ & _ & Hsame)).
      assert (w'' = w1) as -> by congruence.
      destruct Hsame as [Heq _]; [by rewrite Hreg' |].
      rewrite Heq, Hreg' in Hsome. injection Hsome as ->.
      exists mo. split; [apply list_elem_of_here |].
      unfold defineModels in Hstep. rewrite run_bind in Hstep. simpl in Hstep.
      destruct (String.eqb_spec (ModelOptions.model mo) m) as [Hmo | Hmo].
      * rewrite Hmo, Hnone in Hstep. simpl in Hstep.
        destruct (includes (excludeModels_ opts) m); simpl in Hstep;
          [injection Hstep as <-; congruence |].
        destruct (includes_opt (ModelOptions.excludeMethods mo) operation);
          simpl in Hstep; [injection Hstep as <-; congruence |].
        injection Hstep as <-. simpl in Hreg'.
        rewrite lookup_insert_eq in Hreg'. by injection Hreg' as <-.
      * rewrite andb_false_r in Hstep. simpl in Hstep.
        injection Hstep as <-. congruence.
    + destruct (IH w' Hrun Hreg' Hsome) as (mo' & Hin & Hrest).
      exists mo'. split; [by apply list_elem_of_further | done].
Qed.

(** The cache function that the hook defines for a model is built either
    from an element of [models] for that model which does not exclude the
    operation, with its [cacheKey] and its [cacheTime || cacheOptions.ttl],
    or without any option of its own. *)
Lemma definitions_register (p : Params) (m : string) (w w0 : World)
    (d : CacheDef) :
  definitions opts p m w = (Fulfilled tt, w0) →
  registry w !! m = None →
  registry w0 !! m = Some d →
  (∃ mo, mo ∈ default [] (models opts) ∧ ModelOptions.model mo = m
         ∧ includes_opt (ModelOptions.excludeMethods mo) (operation p) = false
         ∧ d = {| references := modelsReferences (ModelOptions.cacheKey mo);
                  ttl := Some (or_number (ModelOptions.cacheTime mo)
                                 (cacheOptions_ttl opts));
                  func := modelsFetch (args p) |})
  ∨ d = {| references := modelReferences; ttl := None; func := modelFetch |}.
Proof.
  intros Hrun Hnone Hsome. unfold definitions in Hrun.
  destruct (negb (includes (excludedCacheMethods opts) (operation p)));
    [| injection Hrun as <-; congruence].
  rewrite run_bind in Hrun.
  destruct (forEach_defined_by opts (args p) m (operation p)
              (default [] (models opts)) w) as (w1 & Hrun1 & Hd1).
  rewrite Hrun1 in Hrun.
  destruct (registry w1 !! m) as [d1 |] eqn:Hreg1.
  - left.
    destruct (defineModel_defined_by opts m (operation p) w1)
      as (w2 & Hrun2 & (_ & _ & _ & _ & _ & Hsame)).
    assert (w2 = w0) as -> by congruence.
    destruct Hsame as [Heq _]; [by rewrite Hreg1 |].
    rewrite Heq, Hreg1 in Hsome. injection Hsome as ->.
    by eapply forEach_registers.
  - right. unfold defineModel in Hrun. rewrite run_bind in Hrun.
    simpl in Hrun. rewrite Hreg1 in Hrun. simpl in Hrun.
    match type of Hrun with
    | (if ?c then _ else _) _ = _ => destruct c
    end.
    + injection Hrun as <-. simpl in Hsome.
      rewrite lookup_insert_eq in Hsome. by injection Hsome as <-.
    + injection Hrun as <-. congruence.
Qed.

(** The tag computed at the call site of the hook: the [cacheKey] when it
    is set and not empty, and the text [undefined] otherwise, as the
    argument object has no [model]. *)
Lemma references_at_call (p : Params) (r : ReferencesFn) (key : string) :
  run_references r (call_args p) key
  = [(match r with
      | modelsReferences cacheKey =>
          if truthy_string cacheKey then interpolate cacheKey else "undefined"
      | modelReferences => "undefined"
      end) +:+ "~" +:+ key].
Proof.
  destruct r as [cacheKey |]; [| done]. simpl. unfold or_string.
  by destruct (truthy_string cacheKey).
Qed.

End Registered.

(** For contrast with operations that carry no model: a [delete] on [User]
    removes the stored entry tagged [User~{}]. *)
Example delete_on_model_purges_its_entry :
  entries warm !! "User~{}"
  = Some {| value := "rows of {}"; tags := ["User~{}"]; lifetime := 60 |}
  ∧ entries (after (delete_user warm)) !! "User~{}" = None.
Proof.
  split; by vm_compute.
Qed.

(** ** Further properties of the extension *)

(** What [removeFormRedis] comes to, once awaited. *)
Lemma removeFormRedis_run (redis : option Redis) (str : string) (w : World) :
  removeFormRedis redis str w
  = (Fulfilled tt,
     match redis with
     | Some _ =>
         match del_fault (faults w) str with
         | Some e => log_event (EvConsoleLog e) (log_event (EvRedisDel str) w)
         | None => set_entries (delete str) (log_event (EvRedisDel str) w)
         end
     | None => w
     end).
Proof.
  unfold removeFormRedis, await, removeFormRedis_promise, redis_del.
  destruct redis as [r |]; [| done].
  run. by destruct (del_fault (faults w) str).
Qed.

(** X1. [removeFormRedis] never rejects: without a client it does nothing
    at all; with one it calls [redis.del] once, and a failure of that call
    is only logged. *)
Theorem removeFormRedis_never_rejects (redis : option Redis) (str : string)
    (w : World) :
  outcome (removeFormRedis redis str w) = Fulfilled tt
  ∧ emitted (removeFormRedis redis str) w
    = match redis with
      | Some _ =>
          EvRedisDel str ::
            match del_fault (faults w) str with
            | Some e => [EvConsoleLog e]
            | None => []
            end
      | None => []
      end
  ∧ registry (after (removeFormRedis redis str w)) = registry w
  ∧ match redis with
    | Some _ => True
    | None => after (removeFormRedis redis str w) = w
    end.
Proof.
  assert (emitted (removeFormRedis redis str) w
          = drop (length (trace w)) (trace (after (removeFormRedis redis str w))))
    as -> by done.
  rewrite removeFormRedis_run. unfold outcome, after. simpl.
  destruct redis as [r |].
  - destruct (del_fault (faults w) str) as [e |]; simpl;
      repeat split; by rewrite <- ?app_assoc, drop_app_length.
  - repeat split. by rewrite drop_all.
Qed.

Section Skipped.
Context `{CacheMethods} `{StringPrototype} (opts : CreatePrismaRedisCache).

(** An element of [models] defines nothing when the model has its cache
    function, is excluded, is another model, or excludes the operation. *)
Lemma defineModels_skip (a : Args) (m operation : string)
    (mo : ModelOptions.t) (w : World) :
  is_Some (registry w !! m)
  ∨ includes (excludeModels_ opts) m = true
  ∨ ModelOptions.model mo ≠ m
  ∨ includes_opt (ModelOptions.excludeMethods mo) operation = true →
  defineModels opts a m operation mo w = (Fulfilled tt, w).
Proof.
  intros Hskip. unfold defineModels. rewrite run_bind. simpl.
  destruct (String.eqb_spec (ModelOptions.model mo) m) as [Heq | Hne];
    [| by rewrite andb_false_r].
  rewrite Heq.
  destruct Hskip as [[d Hd] | [Hx | [Hn | Hx]]]; [| | done |].
  - by rewrite Hd.
  - rewrite Hx. simpl. by rewrite andb_false_r.
  - rewrite Hx. simpl. by rewrite andb_false_r.
Qed.

Lemma forEach_skip (a : Args) (m operation : string)
    (ms : list ModelOptions.t) (w : World) :
  is_Some (registry w !! m)
  ∨ includes (excludeModels_ opts) m = true
  ∨ (∀ mo, mo ∈ ms → ModelOptions.model mo = m →
       includes_opt (ModelOptions.excludeMethods mo) operation = true) →
  forEach ms (defineModels opts a m operation) w = (Fulfilled tt, w).
Proof.
  intros Hskip. induction ms as [| mo ms IH]; [done |].
  simpl. rewrite run_bind, defineModels_skip.
  - apply IH. destruct Hskip as [? | [? | Hall]]; auto.
    right. right. intros mo' Hin. apply Hall. by apply list_elem_of_further.
  - destruct Hskip as [? | [? | Hall]]; auto.
    destruct (decide (ModelOptions.model mo = m)) as [Heq | Hne]; auto.
    right. right. right. apply Hall; [apply list_elem_of_here | done].
Qed.

Lemma defineModel_skip (m operation : string) (w : World) :
  is_Some (registry w !! m)
  ∨ includes (excludeModels_ opts) m = true
  ∨ includes_opt
      (excludedCacheMethodsInModels opts m ≫= ModelOptions.excludeMethods)
      operation = true →
  defineModel opts m operation w = (Fulfilled tt, w).
Proof.
  intros Hskip. unfold defineModel. rewrite run_bind. simpl.
  destruct Hskip as [[d Hd] | [Hx | Hx]].
  - by rewrite Hd.
  - rewrite Hx. simpl. by rewrite andb_false_r.
  - rewrite Hx. simpl. by rewrite andb_false_r.
Qed.

(** The definitions change nothing for a model that has its cache function
    or is excluded, and for an operation excluded for all models. *)
Lemma definitions_skip (p : Params) (m : string) (w : World) :
  is_Some (registry w !! m)
  ∨ includes (excludeModels_ opts) m = true
  ∨ includes (excludedCacheMethods opts) (operation p) = true →
  definitions opts p m w = (Fulfilled tt, w).
Proof.
  intros Hskip. unfold definitions.
  destruct (includes (excludedCacheMethods opts) (operation p)) eqn:Hop;
    [done |]. simpl.
  assert (is_Some (registry w !! m)
          ∨ includes (excludeModels_ opts) m = true) as Hskip'.
  { destruct Hskip as [? | [? | ?]]; auto. done. }
  rewrite run_bind, forEach_skip by (destruct Hskip'; auto).
  apply defineModel_skip. destruct Hskip'; auto.
Qed.

(** When every element of [models] for the model excludes the operation,
    and there is one, the definitions change nothing either. *)
Lemma definitions_skip_in_models (p : Params) (m : string) (w : World)
    (mo : ModelOptions.t) :
  mo ∈ default [] (models opts) →
  ModelOptions.model mo = m →
  (∀ mo', mo' ∈ default [] (models opts) → ModelOptions.model mo' = m →
     includes_opt (ModelOptions.excludeMethods mo') (operation p) = true) →
  definitions opts p m w = (Fulfilled tt, w).
Proof.
  intros Hin Hmo Hall. unfold definitions.
  destruct (includes (excludedCacheMethods opts) (operation p)); [done |].
  simpl. rewrite run_bind, forEach_skip by auto.
  apply defineModel_skip. right. right.
  unfold excludedCacheMethodsInModels.
  destruct (List.find _ _) as [mo' |] eqn:Hfind.
  - apply find_some in Hfind as [Hin' Hp].
    apply andb_true_iff in Hp as [Hp _]. apply String.eqb_eq in Hp.
    simpl. apply Hall; [by apply list_elem_of_In | done].
  - exfalso. eapply find_none in Hfind; [| by apply list_elem_of_In].
    simpl in Hfind. rewrite Hmo, String.eqb_refl in Hfind. simpl in Hfind.
    specialize (Hall mo Hin Hmo).
    by destruct (ModelOptions.excludeMethods mo) as [[| x xs] |].
Qed.

(** The hook on an operation for which the definitions change nothing and
    no cache function is used: one call of the executor. *)
Lemma allOperations_direct (p : Params) (m : string) (w : World) :
  model p = Some m → m ≠ "" →
  definitions opts p m w = (Fulfilled tt, w) →
  includes defaultMutationMethods (operation p) = false →
  registry w !! m = None
  ∨ includes (excludeModels_ opts) m = true
  ∨ includes (excludedCacheMethods opts) (operation p) = true →
  allOperations opts p w = fetchFromPrisma (query p) (args p) w.
Proof.
  intros Hm Hne Hdefs Hmut Hwhy.
  destruct (allOperations_model opts p m w Hm Hne) as (w0 & Hrun & _ & ->).
  assert (w0 = w) as -> by congruence.
  assert (uncached opts p m w = fetchFromPrisma (query p) (args p) w) as Hdirect
    by by rewrite uncached_read.
  destruct (registry w !! m) as [d |] eqn:Hreg; [| done].
  destruct Hwhy as [? | [-> | ->]]; [done | done |].
  by rewrite andb_false_r.
Qed.

(** X2. A read whose model is in [excludeModels], or whose method is among
    the excluded cache methods, is one call of the executor and nothing
    else: the hook settles as the call does, no cache function is defined
    or called, and the stored entries are untouched. *)
Theorem excluded_read_is_one_executor_call (p : Params) (m : string) (w : World) :
  model p = Some m → m ≠ "" →
  includes (excludeModels_ opts) m = true
  ∨ includes (excludedCacheMethods opts) (operation p) = true →
  includes defaultMutationMethods (operation p) = false →
  outcome (allOperations opts p w) = query p (args p) (upstream_calls w)
  ∧ emitted (allOperations opts p) w = [EvQuery (args p)]
  ∧ registry (after (allOperations opts p w)) = registry w
  ∧ entries (after (allOperations opts p w)) = entries w.
Proof.
  intros Hm Hne Hexcl Hmut.
  assert (allOperations opts p w = fetchFromPrisma (query p) (args p) w) as Hrun.
  { apply (allOperations_direct p m); auto. apply definitions_skip. auto. }
  split; [| split; [| split]]; try by rewrite Hrun.
  apply emitted_app. by rewrite Hrun.
Qed.

(** X3. As long as the model has no cache function, a read that every
    element of [models] for the model lists in [excludeMethods] is one call
    of the executor and nothing else; in particular it defines no cache
    function. *)
Theorem excluded_in_models_before_definition (p : Params) (m : string)
    (w : World) (mo : ModelOptions.t) :
  model p = Some m → m ≠ "" →
  registry w !! m = None →
  mo ∈ default [] (models opts) →
  ModelOptions.model mo = m →
  (∀ mo', mo' ∈ default [] (models opts) → ModelOptions.model mo' = m →
     includes_opt (ModelOptions.excludeMethods mo') (operation p) = true) →
  includes defaultMutationMethods (operation p) = false →
  outcome (allOperations opts p w) = query p (args p) (upstream_calls w)
  ∧ emitted (allOperations opts p) w = [EvQuery (args p)]
  ∧ registry (after (allOperations opts p w)) !! m = None
  ∧ entries (after (allOperations opts p w)) = entries w.
Proof.
  intros Hm Hne Hreg Hin Hmo Hall Hmut.
  assert (allOperations opts p w = fetchFromPrisma (query p) (args p) w) as Hrun.
  { apply (allOperations_direct p m); auto.
    by apply (definitions_skip_in_models p m w mo). }
  split; [| split; [| split]]; try by rewrite Hrun.
  apply emitted_app. by rewrite Hrun.
Qed.

End Skipped.

Section MoreWrites.
Context `{CacheMethods} `{StringPrototype} (opts : CreatePrismaRedisCache).

(** The [else] branch calls the executor once and defines nothing. *)
Lemma uncached_calls_once (p : Params) (m : string) (w : World) :
  upstream_calls (after (uncached opts p m w)) = S (upstream_calls w)
  ∧ registry (after (uncached opts p m w)) = registry w.
Proof.
  unfold uncached. rewrite run_bind, run_fetchFromPrisma.
  destruct (query p (args p) (upstream_calls w)) as [r | e]; [| done].
  destruct (includes defaultMutationMethods (operation p)); [| done].
  generalize (invalidateList opts m (redis_of_storage opts)). intros l.
  rewrite run_bind.
  destruct (start_all_issue (redis_of_storage opts) l
              (count_upstream (log_event (EvQuery (args p)) w)))
    as (w1 & -> & _ & (_ & Hr1 & Hu1) & _).
  unfold Promise_all. rewrite !run_bind.
  destruct (settle_all_purges (redis_of_storage opts) l w1)
    as (w2 & -> & _ & (_ & Hr2 & Hu2) & _).
  rewrite first_rejection_fulfilled. unfold after. simpl.
  by rewrite Hu2, Hu1, Hr2, Hr1.
Qed.

Lemma purge_call_no_io (redis : option Redis) (l : list Purge) :
  Forall (λ ev, is_cache_io ev = false) (flat_map (purge_call redis) l).
Proof.
  induction l as [| [pattern | pattern] l IH]; simpl; [done | by constructor |].
  destruct redis; [by constructor | done].
Qed.

Lemma settle_events_no_io (fs : Faults) (redis : option Redis) (l : list Purge) :
  Forall (λ ev, is_cache_io ev = false) (flat_map (settle_events fs redis) l).
Proof.
  induction l as [| [pattern | pattern] l IH]; simpl; [done | |];
    apply Forall_app; (split; [| done]).
  - destruct (invalidate_fault fs pattern); by repeat constructor.
  - destruct redis; [| done]. destruct (del_fault fs pattern); by repeat constructor.
Qed.

(** Elements of [models] without related models and patterns push
    nothing. *)
Lemma modelPurges_nothing (redis : option Redis) (m : string)
    (ms : list ModelOptions.t) :
  (∀ mo, mo ∈ ms → ModelOptions.model mo = m →
     ModelOptions.invalidateRelated mo = None
     ∧ ModelOptions.customInvalidate mo = None) →
  flat_map (modelPurges opts redis)
    (List.filter (λ x, String.eqb (ModelOptions.model x) m) ms) = [].
Proof.
  induction ms as [| mo ms IH]; intros Hnone; [done |]. simpl.
  destruct (String.eqb_spec (ModelOptions.model mo) m) as [Heq | Hne]; simpl.
  - destruct (Hnone mo (list_elem_of_here _ _) Heq) as [Hrel Hcus].
    unfold modelPurges at 1. rewrite Hrel, Hcus. simpl.
    apply IH. intros mo' Hin. apply Hnone. by apply list_elem_of_further.
  - apply IH. intros mo' Hin. apply Hnone. by apply list_elem_of_further.
Qed.

(** X4. A mutation on a model is never sent through a cache function: the
    executor is called exactly once, whether it succeeds or fails, and the
    store of the cache layer is neither read nor written. *)
Theorem mutation_calls_executor_once (p : Params) (m : string) (w : World) :
  model p = Some m → m ≠ "" →
  includes defaultMutationMethods (operation p) = true →
  upstream_calls (after (allOperations opts p w)) = S (upstream_calls w)
  ∧ Forall (λ ev, is_cache_io ev = false) (emitted (allOperations opts p) w).
Proof.
  intros Hm Hne Hmut.
  destruct (query p (args p) (upstream_calls w)) as [r | e] eqn:Hq.
  - destruct (successful_write opts p m w r Hm Hne Hmut Hq)
      as (_ & (defs & Hdefs & ->) & _).
    destruct (allOperations_write opts p m w Hm Hne Hmut)
      as (w0 & (_ & _ & Hu & _) & ->).
    split; [by rewrite (proj1 (uncached_calls_once p m w0)), Hu |].
    apply Forall_app. split.
    + eapply Forall_impl; [exact Hdefs |]. by intros ev ->.
    + constructor; [done |]. apply Forall_app.
      split; [apply purge_call_no_io | apply settle_events_no_io].
  - destruct (allOperations_write opts p m w Hm Hne Hmut)
      as (w0 & (_ & _ & Hu & (defs & Ht & Hdefs) & _) & Hrun).
    split; [by rewrite Hrun, (proj1 (uncached_calls_once p m w0)), Hu |].
    rewrite <- Hu in Hq.
    erewrite emitted_app;
      [| by rewrite Hrun, (uncached_failed opts p m w0 e Hq); simpl;
            rewrite Ht, <- app_assoc].
    apply Forall_app. split; [| by repeat constructor].
    eapply Forall_impl; [exact Hdefs |]. by intros ev ->.
Qed.

(** X5. When the executor fails on a mutation, the hook rejects with the
    executor's error after that single call: no purge is issued and every
    stored entry stays in place. *)
Theorem write_failure_reaches_caller (p : Params) (m : string) (w : World)
    (e : Err) :
  model p = Some m → m ≠ "" →
  includes defaultMutationMethods (operation p) = true →
  query p (args p) (upstream_calls w) = Rejected e →
  outcome (allOperations opts p w) = Rejected e
  ∧ purge_calls (emitted (allOperations opts p) w) = []
  ∧ entries (after (allOperations opts p w)) = entries w.
Proof.
  intros Hm Hne Hmut Hq.
  destruct (failed_write opts p m w e Hm Hne Hmut Hq) as (Hout & Hnone & Hent).
  split; [done |]. split; [by apply purge_calls_none | done].
Qed.

(** X6. A successful mutation on a model issues every pattern that an
    element of [models] for the model lists in [customInvalidate], as it is
    written, against the cache layer and, with a Redis client, against the
    raw store. *)
Theorem write_purges_custom_patterns (p : Params) (m : string) (w : World)
    (r : Result) (mo : ModelOptions.t) (keys : list string) (customKey : string) :
  model p = Some m → m ≠ "" →
  includes defaultMutationMethods (operation p) = true →
  query p (args p) (upstream_calls w) = Fulfilled r →
  mo ∈ default [] (models opts) →
  ModelOptions.model mo = m →
  ModelOptions.customInvalidate mo = Some keys →
  customKey ∈ keys →
  EvInvalidateAll customKey ∈ emitted (allOperations opts p) w
  ∧ (is_Some (redis_of_storage opts) →
     EvRedisDel customKey ∈ emitted (allOperations opts p) w).
Proof.
  intros Hm Hne Hmut Hq Hmo Hmodel Hcus Hkey.
  assert (Hpushed : ∀ pr,
    pr ∈ customPurges (redis_of_storage opts) customKey →
    pr ∈ invalidateList opts m (redis_of_storage opts)).
  { intros pr Hpr. unfold invalidateList.
    rewrite !elem_of_app. right. right. right.
    apply elem_of_flat_map. exists mo. split.
    - apply list_elem_of_In, filter_In. split; [by apply list_elem_of_In |].
      by apply String.eqb_eq.
    - unfold modelPurges. rewrite Hcus. apply elem_of_app. right.
      apply elem_of_flat_map. by exists customKey. }
  split.
  - eapply (pushed_is_issued opts p m w r (via_cache customKey)); try done.
    + apply Hpushed. unfold customPurges. member.
    + simpl. member.
  - intros [c Hc].
    eapply (pushed_is_issued opts p m w r (via_redis customKey)); try done.
    + apply Hpushed. unfold customPurges. rewrite Hc. member.
    + simpl. rewrite Hc. member.
Qed.

(** X7. With the global [useContainsInvalidation] set, a successful
    mutation on a model also issues the quoted patterns of the model, as
    written and in lower case, against the cache layer and, with a Redis
    client, against the raw store. *)
Theorem write_purges_quoted_patterns (p : Params) (m : string) (w : World)
    (r : Result) :
  model p = Some m → m ≠ "" →
  includes defaultMutationMethods (operation p) = true →
  query p (args p) (upstream_calls w) = Fulfilled r →
  useContainsInvalidation opts = Some true →
  EvInvalidateAll (quoted m) ∈ emitted (allOperations opts p) w
  ∧ EvInvalidateAll (quoted (toLowerCase m)) ∈ emitted (allOperations opts p) w
  ∧ (is_Some (redis_of_storage opts) →
     EvRedisDel (quoted m) ∈ emitted (allOperations opts p) w
     ∧ EvRedisDel (quoted (toLowerCase m)) ∈ emitted (allOperations opts p) w).
Proof.
  intros Hm Hne Hmut Hq Hflag.
  assert (useContainsInvalidation_ opts = true) as Hon
    by (unfold useContainsInvalidation_; by rewrite Hflag).
  split; [| split].
  - eapply (pushed_is_issued opts p m w r (via_cache (quoted m))); try done.
    + unfold invalidateList. rewrite Hon.
      destruct (redis_of_storage opts); listed.
    + member.
  - eapply (pushed_is_issued opts p m w r
              (via_cache (quoted (toLowerCase m)))); try done.
    + unfold invalidateList. rewrite Hon.
      destruct (redis_of_storage opts); listed.
    + member.
  - intros [c Hc]. split.
    + eapply (pushed_is_issued opts p m w r (via_redis (quoted m))); try done.
      * unfold invalidateList. rewrite Hon, Hc. listed.
      * simpl. rewrite Hc. member.
    + eapply (pushed_is_issued opts p m w r
                (via_redis (quoted (toLowerCase m)))); try done.
      * unfold invalidateList. rewrite Hon, Hc. listed.
      * simpl. rewrite Hc. member.
Qed.

(** X8. Without the global [useContainsInvalidation], a successful mutation
    on a model whose elements of [models] (if any) list neither related
    models nor patterns issues exactly the purges [*m~*] and [m~*] against
    the cache layer, followed with a Redis client by [*m~*] against the raw
    store - whatever [useContainsInvalidation] the model's own element
    sets, and whichever of these purges fails. *)
Theorem plain_write_purges_exactly (p : Params) (m : string) (w : World)
    (r : Result) :
  model p = Some m → m ≠ "" →
  includes defaultMutationMethods (operation p) = true →
  query p (args p) (upstream_calls w) = Fulfilled r →
  useContainsInvalidation_ opts = false →
  (∀ mo, mo ∈ default [] (models opts) → ModelOptions.model mo = m →
     ModelOptions.invalidateRelated mo = None
     ∧ ModelOptions.customInvalidate mo = None) →
  purge_calls (emitted (allOperations opts p) w)
  = [EvInvalidateAll (tagged_anywhere m); EvInvalidateAll (tagged m)]
    ++ match redis_of_storage opts with
       | Some _ => [EvRedisDel (tagged_anywhere m)]
       | None => []
       end.
Proof.
  intros Hm Hne Hmut Hq Hflag Hnone.
  rewrite (write_purge_calls opts p m w r Hm Hne Hmut Hq).
  unfold invalidateList.
  rewrite Hflag, (modelPurges_nothing _ m _ Hnone). simpl.
  by destruct (redis_of_storage opts).
Qed.

(** X9. Failures of the raw store never fail a write: when the purges of
    the cache layer succeed, a mutation that the executor has carried out
    fulfils with the executor's result, however many calls of [redis.del]
    fail. *)
Theorem redis_failures_do_not_fail_write (p : Params) (m : string) (w : World)
    (r : Result) :
  model p = Some m → m ≠ "" →
  includes defaultMutationMethods (operation p) = true →
  query p (args p) (upstream_calls w) = Fulfilled r →
  (∀ pattern, invalidate_fault (faults w) pattern = None) →
  outcome (allOperations opts p w) = Fulfilled r.
Proof.
  intros Hm Hne Hmut Hq Hok.
  by destruct (successful_write opts p m w r Hm Hne Hmut Hq) as (-> & _).
Qed.

End MoreWrites.

Section MoreReads.
Context `{CacheMethods} `{StringPrototype} (opts : CreatePrismaRedisCache).

(** What the [try ... catch] around a cache function can do to the world:
    it adds events that are no purges, keeps the registry and every stored
    entry, and calls the executor at most twice. *)
Lemma cached_frame (p : Params) (m : string) (d : CacheDef) (w : World) :
  (∃ evs, trace (after (cached opts p m d w)) = trace w ++ evs
          ∧ Forall (λ ev, is_purge ev = false) evs)
  ∧ registry (after (cached opts p m d w)) = registry w
  ∧ (∀ k en, entries w !! k = Some en →
       entries (after (cached opts p m d w)) !! k = Some en)
  ∧ upstream_calls (after (cached opts p m d w)) ≤ S (S (upstream_calls w)).
Proof.
  unfold cached, try_catch.
  destruct (cacheFunction_cases (cacheOptions_ttl opts) m d (call_args p) w)
    as [Hzero | e Httl Hget | en Httl Hget Hen | e Httl Hget Hen Hq
        | r e Httl Hget Hen Hq Hset | r Httl Hget Hen Hq Hset];
    unfold run_func, fetchFromPrisma; simpl in *;
    try destruct (query p (fetch_args (func d) (call_args p)) (upstream_calls w))
      as [r0 | e0] eqn:Hq0;
    rewrite ?fallback_run; simpl;
    try match goal with
        | |- context [match query p (args p) ?n with _ => _ end] =>
            destruct (query p (args p) n) as [r1 | e1] eqn:Hq1
        end;
    simpl;
    (split; [eexists; split;
               [rewrite <- ?app_assoc; reflexivity | by repeat constructor] |]);
    repeat split; auto; try discriminate.
  intros k en Hk. rewrite lookup_insert_ne; [done |]. congruence.
Qed.

(** X10. The hook never replaces or removes a cache function: whatever
    [cache[name]] holds before an operation, on any model, it still holds
    afterwards. *)
Theorem cache_functions_are_kept (p : Params) (w : World) (k : string)
    (d : CacheDef) :
  registry w !! k = Some d →
  registry (after (allOperations opts p w)) !! k = Some d.
Proof.
  intros Hk.
  destruct (model p) as [m |] eqn:Hm;
    [destruct (String.eqb_spec m "") as [-> | Hne] |];
    try (rewrite allOperations_no_model by auto; done).
  destruct (allOperations_model opts p m w Hm Hne)
    as (w0 & _ & (_ & _ & _ & _ & Hother & Hsame) & ->).
  assert (registry w0 !! k = Some d) as Hk0.
  { destruct (decide (k = m)) as [-> | Hkm].
    - destruct Hsame as [-> _]; [by rewrite Hk | done].
    - by rewrite Hother. }
  destruct (registry w0 !! m) as [d0 |].
  - destruct (negb _ && negb _ && negb _).
    + by rewrite (proj1 (proj2 (cached_frame p m d0 w0))).
    + by rewrite (proj2 (uncached_calls_once opts p m w0)).
  - by rewrite (proj2 (uncached_calls_once opts p m w0)).
Qed.

(** The first element of [models] for the model that does not exclude
    the operation is the one whose definition is made. *)
Lemma forEach_defines_first (a : Args) (m operation : string)
    (ms : list ModelOptions.t) (w : World) :
  registry w !! m = None →
  includes (excludeModels_ opts) m = false →
  ∃ w1, forEach ms (defineModels opts a m operation) w = (Fulfilled tt, w1)
        ∧ registry w1 !! m
          = (λ mo, {| references := modelsReferences (ModelOptions.cacheKey mo);
                      ttl := Some (or_number (ModelOptions.cacheTime mo)
                                     (cacheOptions_ttl opts));
                      func := modelsFetch a |})
            <$> List.find
                  (λ mo, String.eqb (ModelOptions.model mo) m
                         && negb (includes_opt (ModelOptions.excludeMethods mo)
                                    operation))
                  ms.
Proof.
  intros Hnone Hmodel. induction ms as [| mo ms IH].
  - exists w. by split.
  - cbn [forEach List.find]. rewrite run_bind.
    destruct (String.eqb_spec (ModelOptions.model mo) m) as [Heq | Hne];
      [destruct (includes_opt (ModelOptions.excludeMethods mo) operation)
         eqn:Hexcl |].
    + rewrite defineModels_skip by auto. simpl. apply IH.
    + unfold defineModels at 1. rewrite run_bind. simpl.
      rewrite Heq, Hnone, String.eqb_refl, Hmodel, Hexcl. simpl.
      rewrite forEach_skip
        by (left; simpl; rewrite lookup_insert_eq; eauto).
      eexists. split; [reflexivity |]. simpl. by rewrite lookup_insert_eq.
    + rewrite defineModels_skip by auto. simpl. apply IH.
Qed.

(** When every element of [models] for the model excludes the operation,
    the element that [find] picks exists as soon as there is an element
    for the model, and excludes the operation. *)
Lemma excludedCacheMethodsInModels_all (m operation : string) :
  List.find
    (λ mo, String.eqb (ModelOptions.model mo) m
           && negb (includes_opt (ModelOptions.excludeMethods mo) operation))
    (default [] (models opts)) = None →
  includes_opt
    (excludedCacheMethodsInModels opts m ≫= ModelOptions.excludeMethods)
    operation
  = existsb (λ mo, String.eqb (ModelOptions.model mo) m)
      (default [] (models opts)).
Proof.
  unfold excludedCacheMethodsInModels.
  induction (default [] (models opts)) as [| mo ms IH]; [done |].
  cbn [List.find existsb].
  destruct (String.eqb_spec (ModelOptions.model mo) m) as [Heq | Hne];
    [| exact IH].
  destruct (includes_opt (ModelOptions.excludeMethods mo) operation) eqn:Hexcl;
    [| done].
  intros _. simpl.
  destruct (ModelOptions.excludeMethods mo) as [[| x xs] |] eqn:Hem.
  - apply bool_decide_eq_true in Hexcl. by apply elem_of_nil in Hexcl.
  - simpl. by rewrite Hem.
  - done.
Qed.

(** X11. Which cache function an operation defines for a model that has
    none yet and is not excluded, the operation not being excluded for all
    models either.  If [models] has an element for the model that does not
    list the operation in its [excludeMethods], the first such element
    decides: its [cacheKey] is the prefix of the tags, its [cacheTime] the
    lifetime unless that is missing or zero (then the global [cacheTime],
    or zero), and the arguments of this very operation are captured in the
    fetch function.  Otherwise, if [models] has elements for the model
    (they all exclude the operation), no cache function is defined; and if
    it has none, the cache function is defined without options of its
    own. *)
Theorem defined_cache_function (p : Params) (m : string) (w : World) :
  model p = Some m → m ≠ "" →
  registry w !! m = None →
  includes (excludeModels_ opts) m = false →
  includes (excludedCacheMethods opts) (operation p) = false →
  registry (after (allOperations opts p w)) !! m
  = match List.find
            (λ mo, String.eqb (ModelOptions.model mo) m
                   && negb (includes_opt (ModelOptions.excludeMethods mo)
                              (operation p)))
            (default [] (models opts)) with
    | Some mo =>
        Some {| references := modelsReferences (ModelOptions.cacheKey mo);
                ttl := Some match ModelOptions.cacheTime mo with
                            | Some (S t) => S t
                            | _ => default DEFAULT_CACHE_TIME (cacheTime opts)
                            end;
                func := modelsFetch (args p) |}
    | None =>
        if existsb (λ mo, String.eqb (ModelOptions.model mo) m)
             (default [] (models opts))
        then None
        else Some {| references := modelReferences; ttl := None;
                     func := modelFetch |}
    end.
Proof.
  intros Hm Hne Hnone Hmodel Hmethod.
  destruct (allOperations_model opts p m w Hm Hne) as (w0 & Hrun & _ & Heq).
  assert (registry (after (allOperations opts p w)) !! m = registry w0 !! m)
    as ->.
  { rewrite Heq. destruct (registry w0 !! m) as [d0 |] eqn:Hreg0.
    - destruct (negb _ && negb _ && negb _).
      + by rewrite (proj1 (proj2 (cached_frame p m d0 w0))).
      + by rewrite (proj2 (uncached_calls_once opts p m w0)).
    - by rewrite (proj2 (uncached_calls_once opts p m w0)). }
  unfold definitions in Hrun. rewrite Hmethod in Hrun. simpl in Hrun.
  rewrite run_bind in Hrun.
  destruct (forEach_defines_first (args p) m (operation p)
              (default [] (models opts)) w Hnone Hmodel) as (w1 & Hrun1 & Hreg1).
  rewrite Hrun1 in Hrun.
  destruct (List.find _ _) as [mo |] eqn:Hfind.
  - rewrite defineModel_skip in Hrun by (left; rewrite Hreg1; simpl; eauto).
    injection Hrun as <-. rewrite Hreg1. simpl. do 3 f_equal.
    unfold cacheOptions_ttl. by destruct (ModelOptions.cacheTime mo) as [[| t] |].
  - unfold defineModel in Hrun. rewrite run_bind in Hrun. simpl in Hrun.
    simpl in Hreg1. rewrite Hreg1, Hmodel in Hrun.
    rewrite (excludedCacheMethodsInModels_all m (operation p) Hfind) in Hrun.
    simpl in Hrun.
    destruct (existsb _ _); simpl in Hrun; injection Hrun as <-; simpl;
      [done | by rewrite lookup_insert_eq].
Qed.

(** The hook on a read of a model that has its cache function. *)
Lemma allOperations_defined (p : Params) (m : string) (d : CacheDef) (w : World) :
  model p = Some m → m ≠ "" →
  registry w !! m = Some d →
  includes (excludeModels_ opts) m = false →
  includes (excludedCacheMethods opts) (operation p) = false →
  includes defaultMutationMethods (operation p) = false →
  allOperations opts p w = cached opts p m d w.
Proof.
  intros Hm Hne Hd Hmodel Hmethod Hmut.
  destruct (allOperations_model opts p m w Hm Hne) as (w0 & Hrun & _ & ->).
  rewrite definitions_skip in Hrun by eauto.
  assert (w0 = w) as -> by congruence.
  by rewrite Hd, Hmodel, Hmethod, Hmut.
Qed.

(** X12. Cache hit. Once a model has its cache function, with a lifetime
    that is not zero, a read on it that finds an entry under the key of its
    arguments is answered with the stored value: the executor is not called and nothing but the read of
    the store happens. The key does not depend on the operation, so the
    entry answers every kind of read with these arguments. *)
Theorem hit_is_answered_from_store (p : Params) (m : string) (d : CacheDef)
    (w : World) (en : CacheEntry) :
  model p = Some m → m ≠ "" →
  registry w !! m = Some d →
  includes (excludeModels_ opts) m = false →
  includes (excludedCacheMethods opts) (operation p) = false →
  includes defaultMutationMethods (operation p) = false →
  default (cacheOptions_ttl opts) (ttl d) ≠ 0 →
  get_fault (faults w) = None →
  entries w !! (m +:+ "~" +:+ args p) = Some en →
  allOperations opts p w
  = (Fulfilled (value en), log_event (EvGet (m +:+ "~" +:+ args p)) w).
Proof.
  intros Hm Hne Hd Hmodel Hmethod Hmut Httl Hfault Hen.
  rewrite (allOperations_defined p m d w) by done.
  unfold cached, try_catch.
  by rewrite (cacheFunction_hit _ m d (call_args p) w en).
Qed.

(** X13. Cache miss. Once a model has its cache function, with a lifetime
    that is not zero, a read on it that finds no entry calls the executor
    once - with the arguments captured
    when the cache function was defined if it was defined from [models],
    and with its own arguments otherwise - and the result of that call is
    returned and stored under the key of the read's own arguments, tagged
    and with the lifetime of the definition. *)
Theorem miss_fetches_and_stores (p : Params) (m : string) (d : CacheDef)
    (w : World) (r : Result) :
  model p = Some m → m ≠ "" →
  registry w !! m = Some d →
  includes (excludeModels_ opts) m = false →
  includes (excludedCacheMethods opts) (operation p) = false →
  includes defaultMutationMethods (operation p) = false →
  default (cacheOptions_ttl opts) (ttl d) ≠ 0 →
  get_fault (faults w) = None →
  set_fault (faults w) = None →
  entries w !! (m +:+ "~" +:+ args p) = None →
  query p
    match func d with
    | modelsFetch queryArgs => queryArgs
    | modelFetch => args p
    end
    (upstream_calls w) = Fulfilled r →
  outcome (allOperations opts p w) = Fulfilled r
  ∧ emitted (allOperations opts p) w
    = [EvGet (m +:+ "~" +:+ args p);
       EvQuery match func d with
               | modelsFetch queryArgs => queryArgs
               | modelFetch => args p
               end;
       EvSet (m +:+ "~" +:+ args p)]
  ∧ entries (after (allOperations opts p w))
    = <[m +:+ "~" +:+ args p :=
          {| value := r;
             tags := run_references (references d) (call_args p) (args p);
             lifetime := default (default DEFAULT_CACHE_TIME (cacheTime opts))
                           (ttl d) |}]> (entries w).
Proof.
  intros Hm Hne Hd Hmodel Hmethod Hmut Httl Hget Hset Hmiss Hq.
  assert (fetch_args (func d) (call_args p)
          = match func d with
            | modelsFetch queryArgs => queryArgs
            | modelFetch => args p
            end) as Hargs by by destruct (func d).
  rewrite <- Hargs in *.
  assert (allOperations opts p w
          = (Fulfilled r,
             set_entries
               (insert (m +:+ "~" +:+ args p)
                  {| value := r;
                     tags := run_references (references d) (call_args p)
                               (args p);
                     lifetime := default (cacheOptions_ttl opts) (ttl d) |})
               (log_event (EvSet (m +:+ "~" +:+ args p))
                  (count_upstream
                     (log_event (EvQuery (fetch_args (func d) (call_args p)))
                        (log_event (EvGet (m +:+ "~" +:+ args p)) w)))))) as Hrun.
  { rewrite (allOperations_defined p m d w) by done.
    unfold cached, try_catch.
    by rewrite (cacheFunction_stored _ m d (call_args p) w r). }
  split; [by rewrite Hrun |]. split; [| by rewrite Hrun].
  apply emitted_app. rewrite Hrun. simpl. by rewrite <- !app_assoc.
Qed.

End MoreReads.

Section MoreFallbacks.
Context `{CacheMethods} `{StringPrototype} (opts : CreatePrismaRedisCache).

(** With a lifetime that is not zero, the first thing the
    [try ... catch] around a cache function does is to read the store under
    the key of the operation. *)
Lemma cached_reads_store (p : Params) (m : string) (d : CacheDef) (w : World) :
  default (cacheOptions_ttl opts) (ttl d) ≠ 0 →
  ∃ evs, trace (after (cached opts p m d w))
         = trace w ++ EvGet (m +:+ "~" +:+ args p) :: evs.
Proof.
  intros Hlife. unfold cached, try_catch.
  change (m +:+ "~" +:+ args p) with (storageKey m (call_args p)).
  destruct (cacheFunction_cases (cacheOptions_ttl opts) m d (call_args p) w)
    as [Hzero | e Httl Hget | en Httl Hget Hen | e Httl Hget Hen Hq
        | r e Httl Hget Hen Hq Hset | r Httl Hget Hen Hq Hset];
    [done | | | | |];
    rewrite ?fallback_run; simpl;
    try match goal with
        | |- context [match query p (args p) ?n with _ => _ end] =>
            destruct (query p (args p) n) as [r1 | e1] eqn:Hq1
        end;
    simpl; eexists; rewrite <- ?app_assoc; reflexivity.
Qed.

(** X14. An operation that is not a mutation never invalidates: it issues
    no purge against the cache layer or the raw store, every entry stored
    before it is still stored after it, and it calls the executor at most
    twice. *)
Theorem reads_never_invalidate (p : Params) (w : World) :
  includes defaultMutationMethods (operation p) = false →
  Forall (λ ev, is_purge ev = false) (emitted (allOperations opts p) w)
  ∧ (∀ k en, entries w !! k = Some en →
       entries (after (allOperations opts p w)) !! k = Some en)
  ∧ upstream_calls (after (allOperations opts p w)) ≤ S (S (upstream_calls w)).
Proof.
  intros Hmut.
  assert (∀ m w0,
    Forall (λ ev, is_purge ev = false) (emitted (uncached opts p m) w0)
    ∧ (∀ k en, entries w0 !! k = Some en →
         entries (after (uncached opts p m w0)) !! k = Some en)
    ∧ upstream_calls (after (uncached opts p m w0)) ≤ S (S (upstream_calls w0)))
    as Hdirect.
  { intros m w0. rewrite uncached_read by done. split; [| split]; simpl; auto.
    erewrite emitted_app; [| by rewrite uncached_read by done].
    by repeat constructor. }
  destruct (model p) as [m |] eqn:Hm;
    [destruct (String.eqb_spec m "") as [-> | Hne] |];
    try (rewrite allOperations_no_model by auto;
         split; [| split]; simpl; auto;
         erewrite emitted_app; [| by rewrite allOperations_no_model by auto];
         by repeat constructor).
  destruct (allOperations_model opts p m w Hm Hne)
    as (w0 & _ & (He & _ & Hu & (defs & Ht & Hdefs) & _) & Hrun).
  assert (Forall (λ ev, is_purge ev = false) defs) as Hdefs'.
  { eapply Forall_impl; [exact Hdefs |]. by intros ev ->. }
  assert (∀ (run : M Result),
    allOperations opts p w = run w0 →
    (∃ evs, trace (after (run w0)) = trace w0 ++ evs
            ∧ Forall (λ ev, is_purge ev = false) evs) →
    (∀ k en, entries w0 !! k = Some en → entries (after (run w0)) !! k = Some en) →
    upstream_calls (after (run w0)) ≤ S (S (upstream_calls w0)) →
    Forall (λ ev, is_purge ev = false) (emitted (allOperations opts p) w)
    ∧ (∀ k en, entries w !! k = Some en →
         entries (after (allOperations opts p w)) !! k = Some en)
    ∧ upstream_calls (after (allOperations opts p w)) ≤ S (S (upstream_calls w)))
    as Hlift.
  { intros run Heq (evs & Hevs & Hnone) Hkeep Hcalls. split; [| split].
    - erewrite emitted_app; [| by rewrite Heq, Hevs, Ht, <- app_assoc].
      by apply Forall_app.
    - intros k en Hk. rewrite Heq. apply Hkeep. by rewrite He.
    - by rewrite Heq, <- Hu. }
  assert (∀ w1,
    ∃ evs, trace (after (uncached opts p m w1)) = trace w1 ++ evs
           ∧ Forall (λ ev, is_purge ev = false) evs) as Htrace.
  { intros w1. rewrite uncached_read by done. simpl.
    eexists. split; [reflexivity | by repeat constructor]. }
  destruct (registry w0 !! m) as [d |].
  - destruct (negb _ && negb _ && negb _).
    + destruct (cached_frame opts p m d w0) as (Hevs & _ & Hkeep & Hcalls).
      by apply (Hlift (cached opts p m d)).
    + apply (Hlift (uncached opts p m)); auto; apply Hdirect.
  - apply (Hlift (uncached opts p m)); auto; apply Hdirect.
Qed.

(** X15. Listing a method in the global [excludeMethods] has no effect
    unless the method is one of [defaultCacheMethods]: a read by any other
    method, on a model that is not excluded, is still handed to the cache
    function of the model, inside the [try ... catch] - which, with a
    lifetime that is not zero, reads the store under the key of the
    operation. *)
Theorem excluding_an_unknown_method_has_no_effect (p : Params) (m : string)
    (w : World) :
  model p = Some m → m ≠ "" →
  operation p ∉ defaultCacheMethods →
  includes (excludeModels_ opts) m = false →
  includes defaultMutationMethods (operation p) = false →
  is_Some (registry w !! m)
  ∨ excluded_in_models opts m (operation p) = false →
  ∃ w0 d,
    definitions opts p m w = (Fulfilled tt, w0)
    ∧ registry w0 !! m = Some d
    ∧ allOperations opts p w = cached opts p m d w0
    ∧ (default (cacheOptions_ttl opts) (ttl d) ≠ 0 →
       EvGet (m +:+ "~" +:+ args p) ∈ emitted (allOperations opts p) w).
Proof.
  intros Hm Hne Hunknown Hmodel Hmut Hserved.
  assert (includes (excludedCacheMethods opts) (operation p) = false) as Hmethod.
  { apply bool_decide_eq_false. unfold excludedCacheMethods.
    rewrite list_elem_of_filter. tauto. }
  destruct (allOperations_model opts p m w Hm Hne)
    as (w0 & Hdefs & (_ & _ & _ & (defs & Ht & _) & _) & Hrun).
  destruct (definitions_define opts p m w w0 Hdefs Hmodel Hmethod Hserved)
    as [d Hd].
  rewrite Hd, Hmodel, Hmethod, Hmut in Hrun. simpl in Hrun.
  exists w0, d. split; [done |]. split; [done |]. split; [done |].
  intros Httl.
  destruct (cached_reads_store p m d w0 Httl) as (evs & Hevs).
  erewrite emitted_app; [| by rewrite Hrun, Hevs, Ht, <- app_assoc].
  apply elem_of_app. right. apply list_elem_of_here.
Qed.

(** X16. When the store cannot be read, a read on a model that has its
    cache function, with a lifetime that is not zero, reads the store, calls the executor directly, and logs
    the error of the store with [console.error] only once that call has
    succeeded; when the call fails as well, the hook rejects with the
    executor's error and the error of the store is not logged. *)
Theorem store_error_is_logged_after_fallback (p : Params) (m : string)
    (d : CacheDef) (w : World) (e : Err) :
  model p = Some m → m ≠ "" →
  registry w !! m = Some d →
  includes (excludeModels_ opts) m = false →
  includes (excludedCacheMethods opts) (operation p) = false →
  includes defaultMutationMethods (operation p) = false →
  default (cacheOptions_ttl opts) (ttl d) ≠ 0 →
  get_fault (faults w) = Some e →
  outcome (allOperations opts p w) = query p (args p) (upstream_calls w)
  ∧ emitted (allOperations opts p) w
    = [EvGet (m +:+ "~" +:+ args p); EvQuery (args p)]
      ++ match query p (args p) (upstream_calls w) with
         | Fulfilled _ => [EvConsoleError e]
         | Rejected _ => []
         end.
Proof.
  intros Hm Hne Hd Hmodel Hmethod Hmut Httl Hfault.
  assert (allOperations opts p w
          = match query p (args p) (upstream_calls w) with
            | Fulfilled r =>
                (Fulfilled r,
                 log_event (EvConsoleError e)
                   (count_upstream
                      (log_event (EvQuery (args p))
                         (log_event (EvGet (m +:+ "~" +:+ args p)) w))))
            | Rejected e' =>
                (Rejected e',
                 count_upstream
                   (log_event (EvQuery (args p))
                      (log_event (EvGet (m +:+ "~" +:+ args p)) w)))
            end) as Hrun.
  { rewrite (allOperations_defined opts p m d w) by done.
    by rewrite (cached_fallback opts p m d w _ e
                  (cacheFunction_unreachable _ m d (call_args p) w e Httl
                     Hfault)). }
  split.
  - rewrite Hrun. by destruct (query p (args p) (upstream_calls w)).
  - apply emitted_app. rewrite Hrun.
    destruct (query p (args p) (upstream_calls w)); simpl;
      by rewrite <- !app_assoc.
Qed.

End MoreFallbacks.

(** ** The further properties on sample operations *)

Lemma excluded_read_is_one_executor_call_witness :
  emitted (allOperations excluding_user (op "User" "findMany" "{}" one_row)) warm
  = [EvQuery "{}"].
Proof.
  destruct (excluded_read_is_one_executor_call excluding_user
              (op "User" "findMany" "{}" one_row) "User" warm)
    as (_ & Hev & _);
    [reflexivity | discriminate | left; reflexivity | reflexivity |].
  exact Hev.
Defined.

Lemma excluded_in_models_before_definition_witness :
  registry (after (find_unique_user empty_world)) !! "User" = None.
Proof.
  destruct (excluded_in_models_before_definition
              (with_models user_without_findUnique 60)
              (op "User" "findUnique" "{}" one_row) "User" empty_world
              (default (plain "User") (head user_without_findUnique)))
    as (_ & _ & Hreg & _);
    [reflexivity | discriminate | reflexivity | apply list_elem_of_here
    | reflexivity | | reflexivity |].
  - intros mo' Hin _. apply list_elem_of_singleton in Hin. by subst mo'.
  - exact Hreg.
Defined.

Lemma mutation_calls_executor_once_witness :
  upstream_calls (after (delete_user warm)) = 1.
Proof.
  destruct (mutation_calls_executor_once sixty_seconds
              (op "User" "delete" "{}" rows) "User" warm)
    as (Hcalls & _); [reflexivity | discriminate | reflexivity |].
  exact Hcalls.
Defined.

Lemma write_failure_reaches_caller_witness :
  outcome (allOperations sixty_seconds (op "User" "delete" "{}" refusing) warm)
  = Rejected "P2002"
  ∧ entries (after (allOperations sixty_seconds
                      (op "User" "delete" "{}" refusing) warm))
    = entries warm.
Proof.
  destruct (write_failure_reaches_caller sixty_seconds
              (op "User" "delete" "{}" refusing) "User" warm "P2002")
    as (Hout & _ & Hent);
    [reflexivity | discriminate | reflexivity | reflexivity |].
  split; [exact Hout | exact Hent].
Defined.

Lemma write_purges_custom_patterns_witness :
  EvRedisDel "feed:*"
  ∈ emitted (allOperations feed_on_redis (op "Post" "update" "{}" rows)) empty_world.
Proof.
  destruct (write_purges_custom_patterns feed_on_redis
              (op "Post" "update" "{}" rows) "Post" empty_world "rows of {}"
              (default (plain "Post") (head post_with_feed)) ["feed:*"] "feed:*")
    as (_ & Hraw);
    [reflexivity | discriminate | reflexivity | reflexivity
    | apply list_elem_of_here | reflexivity | reflexivity
    | apply list_elem_of_here |].
  apply Hraw. by eexists.
Defined.

Lemma write_purges_quoted_patterns_witness :
  EvRedisDel (quoted (toLowerCase "User"))
  ∈ emitted (allOperations contains_on_redis (op "User" "delete" "{}" rows))
      empty_world.
Proof.
  destruct (write_purges_quoted_patterns contains_on_redis
              (op "User" "delete" "{}" rows) "User" empty_world "rows of {}")
    as (_ & _ & Hraw);
    [reflexivity | discriminate | reflexivity | reflexivity | reflexivity |].
  destruct Hraw as (_ & Hlower); [by eexists | exact Hlower].
Defined.

Lemma plain_write_purges_exactly_witness :
  purge_calls
    (emitted (allOperations (with_models user_with_flag 60)
                (op "User" "delete" "{}" rows)) empty_world)
  = [EvInvalidateAll "*User~*"; EvInvalidateAll "User~*"].
Proof.
  apply (plain_write_purges_exactly (with_models user_with_flag 60)
           (op "User" "delete" "{}" rows) "User" empty_world "rows of {}");
    [reflexivity | discriminate | reflexivity | reflexivity | reflexivity |].
  intros mo Hin _. apply list_elem_of_singleton in Hin. by subst mo.
Defined.

Lemma redis_failures_do_not_fail_write_witness :
  outcome (delete_user_on_redis redis_down) = Fulfilled "rows of {}".
Proof.
  apply (redis_failures_do_not_fail_write on_redis
           (op "User" "delete" "{}" rows) "User" redis_down "rows of {}");
    [reflexivity | discriminate | reflexivity | reflexivity | reflexivity].
Defined.

Lemma cache_functions_are_kept_witness :
  registry (after (delete_user after_first_find)) !! "User"
  = Some {| references := modelsReferences None; ttl := Some 60;
            func := modelsFetch "{}" |}.
Proof.
  apply (cache_functions_are_kept sixty_seconds (op "User" "delete" "{}" rows)
           after_first_find "User").
  by vm_compute.
Defined.

Lemma defined_cache_function_witness :
  registry (after (allOperations (with_models user_with_key 60)
                     (op "User" "findMany" "{}" rows) empty_world)) !! "User"
  = Some {| references := modelsReferences (Some "U"); ttl := Some 300;
            func := modelsFetch "{}" |}.
Proof.
  rewrite (defined_cache_function (with_models user_with_key 60)
             (op "User" "findMany" "{}" rows) "User" empty_world);
    [reflexivity | reflexivity | discriminate | reflexivity | reflexivity
    | reflexivity].
Defined.

Lemma hit_is_answered_from_store_witness :
  outcome (allOperations (with_models [plain "User"] 60)
             (op "User" "count" "{}" one_row) after_first_find)
  = Fulfilled "rows of {}".
Proof.
  rewrite (hit_is_answered_from_store (with_models [plain "User"] 60)
             (op "User" "count" "{}" one_row) "User"
             {| references := modelsReferences None; ttl := Some 60;
                func := modelsFetch "{}" |}
             after_first_find
             {| value := "rows of {}"; tags := ["undefined~{}"]; lifetime := 60 |});
    [reflexivity | reflexivity | discriminate | by vm_compute | reflexivity
    | reflexivity | reflexivity | discriminate | reflexivity | by vm_compute].
Defined.

Lemma miss_fetches_and_stores_witness :
  emitted (allOperations (with_models [plain "User"] 60)
             (op "User" "findMany" "{id:2}" rows)) after_first_find
  = [EvGet "User~{id:2}"; EvQuery "{}"; EvSet "User~{id:2}"].
Proof.
  destruct (miss_fetches_and_stores (with_models [plain "User"] 60)
              (op "User" "findMany" "{id:2}" rows) "User"
              {| references := modelsReferences None; ttl := Some 60;
                 func := modelsFetch "{}" |}
              after_first_find "rows of {}")
    as (_ & Hev & _);
    [reflexivity | discriminate | by vm_compute | reflexivity | reflexivity
    | reflexivity | discriminate | reflexivity | reflexivity | by vm_compute
    | reflexivity |].
  exact Hev.
Defined.

Lemma reads_never_invalidate_witness :
  entries (after (find_users rows warm)) !! "User~{}"
  = Some {| value := "rows of {}"; tags := ["User~{}"]; lifetime := 60 |}.
Proof.
  destruct (reads_never_invalidate sixty_seconds
              (op "User" "findMany" "{}" rows) warm)
    as (_ & Hkeep & _); [reflexivity |].
  apply Hkeep. by vm_compute.
Defined.

Lemma excluding_an_unknown_method_has_no_effect_witness :
  EvGet "User~{}"
  ∈ emitted (allOperations excluding_or_throw
               (op "User" "findUniqueOrThrow" "{}" rows)) empty_world.
Proof.
  destruct (excluding_an_unknown_method_has_no_effect excluding_or_throw
              (op "User" "findUniqueOrThrow" "{}" rows) "User" empty_world)
    as (w0 & d & Hdefs & Hd & _ & Hget);
    [reflexivity | discriminate | evaluated | reflexivity | reflexivity
    | right; reflexivity |].
  apply Hget. injection Hdefs as <-. injection Hd as <-. discriminate.
Defined.

Lemma store_error_is_logged_after_fallback_witness :
  emitted (allOperations (with_models [plain "User"] 60)
             (op "User" "findMany" "{}" refusing))
    (set_faults (faults unreachable) after_first_find)
  = [EvGet "User~{}"; EvQuery "{}"].
Proof.
  destruct (store_error_is_logged_after_fallback (with_models [plain "User"] 60)
              (op "User" "findMany" "{}" refusing) "User"
              {| references := modelsReferences None; ttl := Some 60;
                 func := modelsFetch "{}" |}
              (set_faults (faults unreachable) after_first_find) "ECONNREFUSED")
    as (_ & Hev);
    [reflexivity | discriminate | by vm_compute | reflexivity | reflexivity
    | reflexivity | discriminate | reflexivity |].
  exact Hev.
Defined.
